(** * The Memento notebook (software_design/design_patterns/memento/momento.ipynb)

    The notebook has two code cells that define classes and two usage cells.
    [Before] embeds the first class cell (an Editor that keeps its own
    history), [After] embeds the second one (EditorState, Editor, History)
    together with the wiring of the usage cell, and [Store] embeds the
    Editor and EditorState objects of the second cell as objects in a heap,
    for the statements that are about references rather than values.

    Python values are embedded as follows.  A [str] is immutable, so it is a
    [string] value and [+=] on an attribute holding a [str] rebinds the
    attribute to the concatenation.  A Python list used with [append] and
    [pop] is a [list] whose last element is the most recent one.  A method
    that may return [None] returns an [option]; a call that may raise returns
    a [result]. *)

From stdpp Require Import gmap strings list.

Local Open Scope string_scope.
Local Open Scope list_scope.

(** ** Exceptions *)

(** The two exceptions the notebook's classes can provoke: looking up an
    attribute an object does not have, and calling with the wrong number of
    arguments or calling something that is not callable. *)
Inductive exn : Set :=
| AttributeError
| TypeError.

Inductive result (A : Type) : Type :=
| Ok (a : A)
| Raise (e : exn).

Arguments Ok {A} a.
Arguments Raise {A} e.

Definition bind {A B : Type} (r : result A) (k : A -> result B) : result B :=
  match r with
  | Ok a => k a
  | Raise e => Raise e
  end.

Notation "'do' x <- r ; k" := (bind r (fun x => k))
  (at level 10, x name, r at level 100, k at level 200).

(** ** Python lists used as stacks *)

(** [l.pop()] on a non-empty list removes and returns the last element.  On
    an empty list Python raises [IndexError]; both classes of the notebook
    test the list for emptiness first ([if self._states:]), so the empty case
    is returned as [None] and the caller's [if] is the [match] on it. *)
Definition list_pop {A : Type} (l : list A) : option (A * list A) :=
  match last l with
  | Some x => Some (x, removelast l)
  | None => None
  end.

(** ** First class cell: the Editor that manages its own history *)

Module Before.

Module Editor.

Record t : Set := { _content : string; _history : list string }.

(** [Editor()] *)
Definition __init__ : t := {| _content := ""; _history := [] |}.

(** [self._history.append(self._content); self._content += words] *)
Definition add_text (words : string) (self : t) : t :=
  {| _content := _content self +:+ words;
     _history := _history self ++ [_content self] |}.

Definition get_content (self : t) : string := _content self.

(** [undo] pops the last saved content when the history is not empty and
    prints a line otherwise; the second component is what it prints. *)
Definition undo (self : t) : t * list string :=
  match list_pop (_history self) with
  | Some (saved, rest) => ({| _content := saved; _history := rest |}, [])
  | None => (self, ["No states to undo."])
  end.

End Editor.

End Before.

(** ** Second class cell: EditorState, Editor and History *)

Module After.

(** *** The memento *)

Module EditorState.

Record t : Set := { _content : string }.

(** [EditorState(content)] *)
Definition __init__ (content : string) : t := {| _content := content |}.

Definition get_content (self : t) : string := _content self.

End EditorState.

(** *** The originator *)

Module Editor.

Record t : Set := { _content : string }.

(** [Editor()] *)
Definition __init__ : t := {| _content := "" |}.

(** [self._content += words] *)
Definition add_text (words : string) (self : t) : t :=
  {| _content := _content self +:+ words |}.

Definition get_content (self : t) : string := _content self.

(** [return EditorState(self._content)] *)
Definition get_state (self : t) : EditorState.t :=
  EditorState.__init__ (_content self).

(** [self._content = state.get_content()].  The argument is whatever the
    caller passes; the usage cell passes the value of [history.pop()], which
    is an [EditorState] or [None].  [None] has no [get_content], so the
    attribute lookup raises before the assignment. *)
Definition restore_state (state : option EditorState.t) (self : t) : result t :=
  match state with
  | Some st => Ok {| _content := EditorState.get_content st |}
  | None => Raise AttributeError
  end.

End Editor.

(** *** The caretaker *)

(** [History] never looks inside the states it stores, so it is embedded for
    an arbitrary type [A] of states. *)

Module History.

Record t (A : Type) : Type := { _states : list A }.

Arguments Build_t {A} _states.
Arguments _states {A} _.

(** [History()] *)
Definition __init__ {A : Type} : t A := {| _states := [] |}.

(** [self._states.append(state)] *)
Definition push {A : Type} (state : A) (self : t A) : t A :=
  {| _states := _states self ++ [state] |}.

(** [if self._states: return self._states.pop()] and [return None]
    otherwise. *)
Definition pop {A : Type} (self : t A) : option A * t A :=
  match list_pop (_states self) with
  | Some (state, rest) => (Some state, {| _states := rest |})
  | None => (None, self)
  end.

(** Calling an attribute of a History instance by name, with positional
    arguments.  The class body binds [__init__], [push] and [pop]; [__init__]
    binds the instance attribute [_states], a list, which is not callable.
    The remaining attributes of an instance are those of [object], whose
    names all start with two underscores: they are outside this embedding
    ([None] below).  Every other name raises [AttributeError].  A method
    without a [return] returns [None]. *)
Definition call {A : Type} (name : string) (args : list A) (self : t A)
  : option (result (option A) * t A) :=
  if String.eqb name "push" then
    match args with
    | [state] => Some (Ok None, push state self)
    | _ => Some (Raise TypeError, self)
    end
  else if String.eqb name "pop" then
    match args with
    | [] => let '(r, self') := pop self in Some (Ok r, self')
    | _ => Some (Raise TypeError, self)
    end
  else if String.eqb name "__init__" then
    match args with
    | [] => Some (Ok None, __init__)
    | _ => Some (Raise TypeError, self)
    end
  else if String.eqb name "_states" then Some (Raise TypeError, self)
  else if String.prefix "__" name then None
  else Some (Raise AttributeError, self).

(** A caller's sequence of operations on one History, and the values the
    [pop] calls return, in order. *)
Inductive op (A : Type) : Type :=
| Push (state : A)
| Pop.

Arguments Push {A} state.
Arguments Pop {A}.

Fixpoint run {A : Type} (ops : list (op A)) (self : t A)
  : list (option A) * t A :=
  match ops with
  | [] => ([], self)
  | Push state :: ops' => run ops' (push state self)
  | Pop :: ops' =>
      let '(r, self') := pop self in
      let '(rs, self'') := run ops' self' in
      (r :: rs, self'')
  end.

(** [n] calls of [pop] in a row. *)
Definition pops {A : Type} (n : nat) (self : t A) : list (option A) * t A :=
  run (replicate n Pop) self.

(** [for state in states: history.push(state)] *)
Definition pushes {A : Type} (states : list A) (self : t A) : t A :=
  foldl (fun h state => push state h) self states.

(** How many of the returned values are not [None]. *)
Definition succeeded {A : Type} (rs : list (option A)) : nat :=
  length (filter is_Some rs).

End History.

(** *** The usage cell

    The last code cell wires one Editor and one History together.  It first
    pushes the state of the fresh Editor, then alternates [add_text] with
    [history.push(editor.get_state())], and undoes with
    [editor.restore_state(history.pop())], printing [editor.get_content()]
    after each. *)

Module Usage.

Record t : Type := { editor : Editor.t; history : History.t EditorState.t }.

(** [editor = Editor(); history = History();
    history.push(editor.get_state())] *)
Definition start : t :=
  {| editor := Editor.__init__;
     history := History.push (Editor.get_state Editor.__init__) History.__init__ |}.

(** [editor.add_text(words); history.push(editor.get_state())] *)
Definition edit (words : string) (s : t) : t :=
  let editor' := Editor.add_text words (editor s) in
  {| editor := editor';
     history := History.push (Editor.get_state editor') (history s) |}.

(** [editor.restore_state(history.pop())]: the argument is evaluated first,
    so the History has been popped when [restore_state] runs. *)
Definition undo (s : t) : result t :=
  let '(state, history') := History.pop (history s) in
  do editor' <- Editor.restore_state state (editor s);
  Ok {| editor := editor'; history := history' |}.

(** [print(editor.get_content())] *)
Definition read (s : t) : string := Editor.get_content (editor s).

Definition edits (texts : list string) (s : t) : t :=
  foldl (fun s words => edit words s) s texts.

Fixpoint undos (n : nat) (s : t) : result t :=
  match n with
  | 0 => Ok s
  | S n' => do s' <- undo s; undos n' s'
  end.

(** [undos n] followed by [print(editor.get_content())]. *)
Definition read_after_undos (n : nat) (s : t) : result string :=
  do s' <- undos n s; Ok (read s').

(** The Editor after [add_text] has been called with each of [texts] in
    turn, and nothing else: its state after the last of these calls. *)
Definition applied (texts : list string) : Editor.t :=
  foldl (fun e words => Editor.add_text words e) Editor.__init__ texts.

End Usage.

End After.

(** ** The two designs driven by the same commands

    The first design saves the content inside [add_text] before it changes
    it.  The matching composition of the second design pushes
    [editor.get_state()] immediately before each [add_text] and undoes with
    [editor.restore_state(history.pop())], starting from [Editor()] and
    [History()]. *)

Module Compare.

Inductive command : Set :=
| AddText (words : string)
| Undo.

Definition step_before (c : command) (e : Before.Editor.t) : Before.Editor.t :=
  match c with
  | AddText words => Before.Editor.add_text words e
  | Undo => fst (Before.Editor.undo e)
  end.

Definition run_before (cs : list command) : Before.Editor.t :=
  foldl (fun e c => step_before c e) Before.Editor.__init__ cs.

Definition start_after : After.Usage.t :=
  {| After.Usage.editor := After.Editor.__init__;
     After.Usage.history := After.History.__init__ |}.

Definition step_after (c : command) (s : After.Usage.t) : result After.Usage.t :=
  match c with
  | AddText words =>
      let history' :=
        After.History.push (After.Editor.get_state (After.Usage.editor s))
          (After.Usage.history s) in
      Ok {| After.Usage.editor := After.Editor.add_text words (After.Usage.editor s);
            After.Usage.history := history' |}
  | Undo => After.Usage.undo s
  end.

Fixpoint run_from (cs : list command) (s : After.Usage.t) : result After.Usage.t :=
  match cs with
  | [] => Ok s
  | c :: cs' => do s' <- step_after c s; run_from cs' s'
  end.

Definition run_after (cs : list command) : result After.Usage.t :=
  run_from cs start_after.

(** [get_content()] after the commands, in each design. *)
Definition read_before (cs : list command) : string :=
  Before.Editor.get_content (run_before cs).

Definition read_after (cs : list command) : result string :=
  do s <- run_after cs; Ok (After.Usage.read s).

(** No [Undo] is issued while nothing is saved: [depth] counts the saved
    states. *)
Fixpoint undo_guarded (depth : nat) (cs : list command) : bool :=
  match cs with
  | [] => true
  | AddText _ :: cs' => undo_guarded (S depth) cs'
  | Undo :: cs' =>
      match depth with
      | 0 => false
      | S depth' => undo_guarded depth' cs'
      end
  end.

(** The second design's session mirrors the first design's Editor: same
    content, and one pushed state per saved content, in the same order. *)
Definition mirrors (e : Before.Editor.t) (s : After.Usage.t) : Prop :=
  After.Editor._content (After.Usage.editor s) = Before.Editor._content e
  /\ After.History._states (After.Usage.history s)
     = map After.EditorState.__init__ (Before.Editor._history e).

End Compare.

(** ** The Editor and its mementos as objects in a heap

    An [EditorState] holds a reference to the [str] that was the Editor's
    content when it was built.  Whether a later call on the Editor can change
    what a memento returns is a question about objects, so here the objects
    of the second class cell live in a heap and are named by locations. *)

Module Store.

Abbreviation loc := positive.

Inductive val : Set :=
| VNone
| VRef (l : loc).

(** An object is an instance of one of the two classes, with its [_content]
    attribute.  The attribute holds a [str], which is immutable. *)
Inductive obj : Set :=
| ObjEditor (_content : string)
| ObjEditorState (_content : string).

Abbreviation heap := (gmap loc obj).

(** [v.get_content()]: both classes define [get_content]; [None] does not.
    A reference always names a live object in Python; a location that is not
    allocated is treated like [None]. *)
Definition get_content (v : val) (h : heap) : result string :=
  match v with
  | VNone => Raise AttributeError
  | VRef l =>
      match h !! l with
      | Some (ObjEditor content) => Ok content
      | Some (ObjEditorState content) => Ok content
      | None => Raise AttributeError
      end
  end.

(** [EditorState(content)] allocates a new object. *)
Definition EditorState_new (content : string) (h : heap) : loc * heap :=
  let l := fresh (dom h) in (l, <[l := ObjEditorState content]> h).

(** [Editor()] *)
Definition Editor_new (h : heap) : loc * heap :=
  let l := fresh (dom h) in (l, <[l := ObjEditor ""]> h).

(** The methods of [Editor], called on the object at [self].  An
    [EditorState] has none of [add_text], [get_state] and [restore_state]. *)
Definition add_text (self : loc) (words : string) (h : heap) : result val * heap :=
  match h !! self with
  | Some (ObjEditor content) => (Ok VNone, <[self := ObjEditor (content +:+ words)]> h)
  | _ => (Raise AttributeError, h)
  end.

Definition get_state (self : loc) (h : heap) : result val * heap :=
  match h !! self with
  | Some (ObjEditor content) =>
      let '(l, h') := EditorState_new content h in (Ok (VRef l), h')
  | _ => (Raise AttributeError, h)
  end.

Definition restore_state (self : loc) (state : val) (h : heap) : result val * heap :=
  match h !! self with
  | Some (ObjEditor _) =>
      match get_content state h with
      | Ok content => (Ok VNone, <[self := ObjEditor content]> h)
      | Raise e => (Raise e, h)
      end
  | _ => (Raise AttributeError, h)
  end.

(** Calls on one Editor.  A call that raises leaves the heap as it was, so
    the heap after a sequence of calls is the same whether the caller stops
    at the first exception (a shorter sequence) or catches it and goes on. *)
Inductive call : Set :=
| AddText (words : string)
| GetState
| RestoreState (state : val).

Definition exec (self : loc) (c : call) (h : heap) : result val * heap :=
  match c with
  | AddText words => add_text self words h
  | GetState => get_state self h
  | RestoreState state => restore_state self state h
  end.

Definition execs (self : loc) (cs : list call) (h : heap) : heap :=
  foldl (fun h c => snd (exec self c h)) h cs.

(** An argument of [add_text] that is not a [str]: [None], an [int], or an
    object of the notebook's classes. *)
Inductive nonstr : Set :=
| NonStrNone
| NonStrInt (n : Z)
| NonStrRef (l : loc).

(** [self.add_text(words)] with such an argument, [add_text] above being
    the call with a [str].  None of these values can be concatenated to a
    [str], so on an Editor [self._content += words] raises [TypeError] and
    assigns nothing; an [EditorState] has no [add_text]. *)
Definition add_text_nonstr (self : loc) (words : nonstr) (h : heap)
  : result val * heap :=
  match h !! self with
  | Some (ObjEditor _) => (Raise TypeError, h)
  | _ => (Raise AttributeError, h)
  end.

(** The Editor at [e] is live and the object at [s] is a memento that
    captured [content]. *)
Definition holds (e s : loc) (content : string) (h : heap) : Prop :=
  (exists current, h !! e = Some (ObjEditor current))
  /\ h !! s = Some (ObjEditorState content).

End Store.

(** ** The usage cell of the first design

    The cell after the first class cell calls [editor.add_text] for each
    text and then [editor.undo()] some number of times. *)

Module BeforeUsage.

(** [for words in texts: editor.add_text(words)] *)
Definition add_texts (texts : list string) (e : Before.Editor.t) : Before.Editor.t :=
  foldl (fun e words => Before.Editor.add_text words e) e texts.

(** [n] calls of [editor.undo()] in a row, with the lines they print. *)
Fixpoint undos (n : nat) (e : Before.Editor.t) : Before.Editor.t * list string :=
  match n with
  | 0 => (e, [])
  | S n' =>
      let '(e1, out1) := Before.Editor.undo e in
      let '(e2, out2) := undos n' e1 in
      (e2, out1 ++ out2)
  end.

End BeforeUsage.

(** ** What goes into and comes out of a History *)

Module HistoryTrace.

(** The states a sequence of operations pushes, in order. *)
Definition pushed {A : Type} (ops : list (After.History.op A)) : list A :=
  omap (fun o => match o with
                 | After.History.Push state => Some state
                 | After.History.Pop => None
                 end) ops.

(** The states among the values returned by [pop] calls, in order. *)
Definition returned {A : Type} (rs : list (option A)) : list A :=
  omap id rs.

End HistoryTrace.

(** * The decorators notebook

    The notebook defines decorators by closures: the decorator returns a
    [wrapper] that runs around the decorated function.  A wrapper that keeps
    state in a variable of the enclosing call (a cache, a list of call times)
    is embedded as a function from the state before the call to the result
    and the state after it.  A decorated function that only computes is a
    function; one that prints returns the lines it prints. *)

Module Decorators.

(** The exceptions the decorators raise, with their messages. *)
Inductive raised : Set :=
| PermissionError (message : string)
| ValueError (message : string)
| Exception (message : string).

Inductive outcome (A : Type) : Type :=
| Returns (a : A)
| Raises (e : raised).

Arguments Returns {A} a.
Arguments Raises {A} e.

(** ** Access control *)

Module User.

Record t : Set := { permissions : list string }.

(** [User(permissions)] *)
Definition __init__ (permissions : list string) : t :=
  {| permissions := permissions |}.

(** [return permission in self.permissions] *)
Definition has_permission (permission : string) (self : t) : bool :=
  bool_decide (permission ∈ permissions self).

End User.

Section requires_permission.

Context {X R : Type}.

(** The [wrapper] of [requires_permission(permission)(func)].  The
    decorated function returns an outcome and the lines it prints. *)
Definition requires_permission (permission : string)
    (func : User.t -> X -> outcome R * list string)
    (user : User.t) (args : X) : outcome R * list string :=
  if negb (User.has_permission permission user) then
    (Raises (PermissionError "You do not have the required permission"), [])
  else func user args.

End requires_permission.

(** [print(f"User {username} deleted")], with [username] a [str]; the
    function returns [None]. *)
Definition delete_user_body (user : User.t) (username : string)
  : outcome unit * list string :=
  (Returns tt, ["User " +:+ username +:+ " deleted"]).

(** [@requires_permission('admin') def delete_user(user, username)] *)
Definition delete_user : User.t -> string -> outcome unit * list string :=
  requires_permission "admin" delete_user_body.

(** ** Caching *)

Section cache_decorator.

Context {X K V : Type} `{Countable K}.

(** [X] is the type of the argument tuples.  The [cache] dictionary finds
    an entry by the hash and [==] of the tuple, and different tuples can be
    equal in that sense, as [(1,)], [(True,)] and [(1.0,)] are.  [key args]
    is the key under which the dictionary holds [args]: two tuples have the
    same key exactly when they are [==]. *)
Variable key : X -> K.

(** The decorated function, taken to compute its result from its arguments
    and nothing else.  It receives the arguments of the call, not the
    key. *)
Variable func : X -> V.

(** The [wrapper] of [cache_decorator(func)], on the [cache] dictionary
    of the enclosing call.  The third component lists the arguments [func]
    was called with during this call: none on a hit, [args] on a miss. *)
Definition cache_wrapper (args : X) (cache : gmap K V) : V * gmap K V * list X :=
  match cache !! key args with
  | Some cached => (cached, cache, [])
  | None =>
      let result := func args in
      (result, <[key args := result]> cache, [args])
  end.

(** Calls of the wrapper with each of [argss] in turn: the results, the
    cache at the end, and the calls of [func], in order. *)
Fixpoint cache_calls (argss : list X) (cache : gmap K V)
  : list V * gmap K V * list X :=
  match argss with
  | [] => ([], cache, [])
  | args :: rest =>
      let '(result, cache1, evaluated1) := cache_wrapper args cache in
      let '(results, cache2, evaluated2) := cache_calls rest cache1 in
      (result :: results, cache2, evaluated1 ++ evaluated2)
  end.

(** [cache = {}] when the decorator is applied. *)
Definition cache_decorated (argss : list X) : list V * gmap K V * list X :=
  cache_calls argss ∅.

(** The first of [argss] that the dictionary holds under the key [k]. *)
Fixpoint first_with_key (k : K) (argss : list X) : option X :=
  match argss with
  | [] => None
  | args :: rest =>
      if decide (key args = k) then Some args else first_with_key k rest
  end.

(** The cache after the calls [seen]: under each key, the result of [func]
    on the first of the calls with that key. *)
Definition cache_tracks (seen : list X) (cache : gmap K V) : Prop :=
  forall k, cache !! k = func <$> first_with_key k seen.

End cache_decorator.

(** [@cache_decorator def compute_square(n): return n * n], on integers. *)
Definition compute_square_body (n : Z) : Z := (n * n)%Z.

(** ** Input validation *)

(** [wrapper(x, y)] of [validate_non_negative(func)], on integers. *)
Definition validate_non_negative {R : Type} (func : Z -> Z -> R) (x y : Z)
  : outcome R :=
  if ((x <? 0) || (y <? 0))%Z then
    Raises (ValueError "Arguments must be non-negative")
  else Returns (func x y).

(** [@validate_non_negative def add(x, y): return x + y] *)
Definition add : Z -> Z -> outcome Z :=
  validate_non_negative (fun x y => (x + y)%Z).

(** ** Rate limiting *)

Section rate_limit.

(** [T] is the type of the readings of [time.perf_counter()] and
    [within_period current_time call] is the test
    [current_time - call < period] on them, for the [period] given to
    [rate_limit]; floating-point arithmetic is not embedded, so the test is a
    parameter.  [max_calls] is an integer. *)
Context {T X R : Type}.
Variable within_period : T -> T -> bool.
Variable max_calls : Z.
Variable func : X -> R.

(** The [wrapper] of [rate_limit(max_calls, period)(func)], on the
    [calls] list of the enclosing call, when the clock reads
    [current_time].  The list is filtered in place before the test, so it is
    filtered also when the call raises. *)
Definition rate_limit_wrapper (current_time : T) (args : X) (calls : list T)
  : outcome R * list T :=
  let calls' := List.filter (fun call => within_period current_time call) calls in
  if (Z.of_nat (length calls') >=? max_calls)%Z then
    (Raises (Exception "Rate limit exceeded"), calls')
  else (Returns (func args), calls' ++ [current_time]).

(** Calls of the wrapper at the given clock readings, in turn. *)
Fixpoint rate_limit_calls (requests : list (T * X)) (calls : list T)
  : list (outcome R) * list T :=
  match requests with
  | [] => ([], calls)
  | (current_time, args) :: rest =>
      let '(r, calls1) := rate_limit_wrapper current_time args calls in
      let '(rs, calls2) := rate_limit_calls rest calls1 in
      (r :: rs, calls2)
  end.

End rate_limit.

(** ** Memoization *)

(** [fibonacci(n)] calls itself on [n - 1] and [n - 2]; [lru_cache] only
    stores results and the function computes from [n] alone, so the cache
    does not change the value a call returns, it only spares calls.  [depth]
    bounds the nesting of the calls, as the interpreter's recursion limit
    does, for a cache that holds nothing yet: [None] stands for exceeding
    it. *)
Fixpoint fibonacci (depth : nat) (n : Z) : option Z :=
  match depth with
  | O => None
  | S depth' =>
      if (n <? 2)%Z then Some n
      else
        match fibonacci depth' (n - 1), fibonacci depth' (n - 2) with
        | Some a, Some b => Some (a + b)%Z
        | _, _ => None
        end
  end.

(** Whether a call returned. *)
Definition returned {A : Type} (r : outcome A) : bool :=
  match r with
  | Returns _ => true
  | Raises _ => false
  end.

End Decorators.

(** ** A History with a maximum capacity *)

Module BoundedHistory.

(** Modelled from the spec: a History configured with a maximum capacity.
    The notebook's [History] takes no capacity and its [push] only appends,
    so the configured History is not in the notebook.  The spec gives a
    History an undo sequence, most recent last, a redo sequence and
    optionally a maximum capacity. *)
Record t (A : Type) : Type :=
  { undo_sequence : list A; redo_sequence : list A; capacity : option nat }.

Arguments Build_t {A} _ _ _.
Arguments undo_sequence {A} _.
Arguments redo_sequence {A} _.
Arguments capacity {A} _.


(** Modelled from the spec: keeping a sequence within a capacity by
    discarding its oldest entries, those at the front. *)
Definition within_capacity {A : Type} (capacity : option nat) (l : list A)
  : list A :=
  match capacity with
  | Some K => drop (length l - K) l
  | None => l
  end.

(** Modelled from the spec: [push(snapshot)] appends the snapshot to the
    undo sequence; if a maximum capacity is configured and the sequence
    would exceed it, the oldest entry is discarded, at the opposite end
    from push and pop, so that the undo count is the old count plus one,
    capped at the maximum.  It clears the redo sequence. *)
Definition push {A : Type} (snapshot : A) (self : t A) : t A :=
  {| undo_sequence :=
       within_capacity (capacity self) (undo_sequence self ++ [snapshot]);
     redo_sequence := [];
     capacity := capacity self |}.

(** Modelled from the spec: [undo()] removes and returns the most recently
    pushed entry of a non-empty undo sequence and appends it to the redo
    sequence; on an empty one it signals [EmptyHistory], here [None], and
    changes nothing. *)
Definition undo {A : Type} (self : t A) : option A * t A :=
  match list_pop (undo_sequence self) with
  | Some (snapshot, rest) =>
      (Some snapshot,
       {| undo_sequence := rest;
          redo_sequence := redo_sequence self ++ [snapshot];
          capacity := capacity self |})
  | None => (None, self)
  end.

(** The pushes of [snapshots], in order. *)
Definition pushes {A : Type} (snapshots : list A) (self : t A) : t A :=
  foldl (fun h snapshot => push snapshot h) self snapshots.

(** [n] calls of [undo()] in a row and what they return. *)
Fixpoint undos {A : Type} (n : nat) (self : t A) : list (option A) * t A :=
  match n with
  | 0 => ([], self)
  | S n' =>
      let '(r, self') := undo self in
      let '(rs, self'') := undos n' self' in
      (r :: rs, self'')
  end.

End BoundedHistory.

(** * Properties *)

Import After.

(** ** Lists used as stacks *)

Lemma list_pop_nil {A : Type} : list_pop (@nil A) = None.
Proof. reflexivity. Qed.

Lemma list_pop_snoc {A : Type} (l : list A) (x : A) :
  list_pop (l ++ [x]) = Some (x, l).
Proof.
  unfold list_pop. rewrite last_snoc. f_equal. f_equal.
  apply removelast_last.
Qed.

Lemma list_pop_None {A : Type} (l : list A) :
  list_pop l = None <-> l = [].
Proof.
  split; [| intros ->; reflexivity].
  destruct l as [| x l _] using rev_ind; [reflexivity |].
  rewrite list_pop_snoc. discriminate.
Qed.

Lemma list_pop_Some {A : Type} (l rest : list A) (x : A) :
  list_pop l = Some (x, rest) <-> l = rest ++ [x].
Proof.
  split; [| intros ->; apply list_pop_snoc].
  destruct l as [| y l _] using rev_ind; [discriminate |].
  rewrite list_pop_snoc. intros [= -> ->]. reflexivity.
Qed.

(** ** The caretaker alone *)

Section History_facts.

Context {A : Type}.
Implicit Types (h : History.t A) (state : A).

Lemma pop_empty h :
  History._states h = [] -> History.pop h = (None, h).
Proof. unfold History.pop. intros ->. reflexivity. Qed.

Lemma pop_push state h :
  History.pop (History.push state h) = (Some state, h).
Proof.
  unfold History.pop, History.push; simpl.
  rewrite list_pop_snoc. destruct h; reflexivity.
Qed.

Lemma pop_snoc (l : list A) state :
  History.pop {| History._states := l ++ [state] |}
  = (Some state, {| History._states := l |}).
Proof. unfold History.pop; simpl. rewrite list_pop_snoc. reflexivity. Qed.

Lemma pop_nonempty h :
  History._states h <> [] ->
  exists state h', History.pop h = (Some state, h') /\ History.push state h' = h.
Proof.
  destruct h as [l]; simpl. intros Hne.
  destruct l as [| x l _] using rev_ind; [congruence |].
  exists x, {| History._states := l |}. split; [apply pop_snoc | reflexivity].
Qed.

Lemma pop_None_iff h :
  fst (History.pop h) = None <-> History._states h = [].
Proof.
  split.
  - destruct h as [l]; simpl.
    destruct l as [| x l _] using rev_ind; [reflexivity |].
    rewrite pop_snoc. discriminate.
  - intros E. rewrite (pop_empty h E). reflexivity.
Qed.

End History_facts.

Lemma run_pop_empty {A : Type} (h : History.t A) :
  History._states h = [] -> snd (History.pop h) = h.
Proof. intros E. rewrite (pop_empty h E). reflexivity. Qed.

Lemma before_undo_empty (e : Before.Editor.t) :
  Before.Editor._history e = [] ->
  Before.Editor.undo e = (e, ["No states to undo."]).
Proof. unfold Before.Editor.undo. intros ->. reflexivity. Qed.

(** C8.  The History is a last-in-first-out container: [push(s)] followed
    by [pop()] returns exactly [s], and the History afterwards, hence its
    sequence of states, is the one before the push. *)
Theorem history_push_then_pop {A : Type} (h : History.t A) (s : A) :
  History.pop (History.push s h) = (Some s, h)
  /\ History._states (snd (History.pop (History.push s h))) = History._states h.
Proof.
  rewrite pop_push. split; reflexivity.
Qed.

(** C2.  On a History whose sequence is empty, [pop()] returns [None] and
    leaves the History as it was, so every later sequence of operations
    returns the same values and ends in the same History as it would have
    without the call.  The undo of the first design's Editor on an empty
    history prints its message and leaves the Editor, and so its content,
    as it was. *)
Theorem empty_undo_mutates_nothing {A : Type}
    (h : History.t A) (e : Before.Editor.t)
    (Hh : History._states h = []) (He : Before.Editor._history e = []) :
  History.pop h = (None, h)
  /\ History._states (snd (History.pop h)) = History._states h
  /\ (forall ops, History.run ops (snd (History.pop h)) = History.run ops h)
  /\ Before.Editor.undo e = (e, ["No states to undo."])
  /\ Before.Editor.get_content (fst (Before.Editor.undo e))
     = Before.Editor.get_content e.
Proof.
  rewrite (run_pop_empty h Hh), (before_undo_empty e He), (pop_empty h Hh).
  repeat split.
Qed.

Lemma empty_undo_mutates_nothing_witness :
  History.pop (@History.__init__ EditorState.t) = (None, History.__init__)
  /\ History._states (snd (History.pop (@History.__init__ EditorState.t)))
     = History._states (@History.__init__ EditorState.t)
  /\ (forall ops,
        History.run ops (snd (History.pop (@History.__init__ EditorState.t)))
        = History.run ops History.__init__)
  /\ Before.Editor.undo Before.Editor.__init__
     = (Before.Editor.__init__, ["No states to undo."])
  /\ Before.Editor.get_content (fst (Before.Editor.undo Before.Editor.__init__))
     = Before.Editor.get_content Before.Editor.__init__.
Proof.
  exact (empty_undo_mutates_nothing History.__init__ Before.Editor.__init__
           eq_refl eq_refl).
Defined.

(** C6.  Round trip: restoring the state an Editor has just handed out does
    not raise and leaves the Editor as it was; [get_content()] before and
    after are equal. *)
Theorem restore_get_state_round_trip (e : Editor.t) :
  exists e',
    Editor.restore_state (Some (Editor.get_state e)) e = Ok e'
    /\ Editor.get_content e' = Editor.get_content e
    /\ e' = e.
Proof.
  exists e. destruct e as [content]. repeat split.
Qed.

(** C9.  [pop()] returns [None] exactly when the History is empty, and
    [None] is no snapshot.  The undo path of the usage cell,
    [editor.restore_state(history.pop())], returns normally exactly when the
    History is not empty; on an empty History it raises [AttributeError],
    because [None] has no [get_content]. *)
Theorem undo_path_requires_nonempty (s : Usage.t) :
  (fst (History.pop (Usage.history s)) = None
   <-> History._states (Usage.history s) = [])
  /\ (forall st : EditorState.t, @None EditorState.t <> Some st)
  /\ ((exists s', Usage.undo s = Ok s')
      <-> History._states (Usage.history s) <> [])
  /\ (Usage.undo s = Raise AttributeError
      <-> History._states (Usage.history s) = []).
Proof.
  destruct s as [e [l]]; simpl.
  split; [apply (pop_None_iff {| History._states := l |}) |].
  split; [discriminate |].
  unfold Usage.undo; simpl.
  destruct l as [| x l _] using rev_ind.
  - simpl. split; split; try reflexivity; try congruence.
    intros [s' Hs']. discriminate.
  - rewrite pop_snoc. simpl. split; split; try discriminate.
    + intros _. intros E. apply app_eq_nil in E as [_ E]. discriminate.
    + intros _. eexists. reflexivity.
    + intros E. apply app_eq_nil in E as [_ E]. discriminate.
Qed.

(** ** The usage cell *)

Lemma restore_get_state (x e : Editor.t) :
  Editor.restore_state (Some (Editor.get_state x)) e = Ok x.
Proof. destruct x; reflexivity. Qed.

Lemma applied_snoc (texts : list string) (words : string) :
  Usage.applied (texts ++ [words])
  = Editor.add_text words (Usage.applied texts).
Proof. unfold Usage.applied. rewrite foldl_snoc. reflexivity. Qed.

(** The states the usage cell has pushed after [texts]: the state of the
    fresh Editor and the state after each [add_text], oldest first. *)
Lemma edits_start (texts : list string) :
  Usage.edits texts Usage.start
  = {| Usage.editor := Usage.applied texts;
       Usage.history :=
         {| History._states :=
              map (fun i => Editor.get_state (Usage.applied (take i texts)))
                  (seq 0 (S (length texts))) |} |}.
Proof.
  induction texts as [| words texts IH] using rev_ind; [reflexivity |].
  unfold Usage.edits in *. rewrite foldl_snoc, IH. clear IH.
  unfold Usage.edit; cbn [Usage.editor Usage.history].
  rewrite <- applied_snoc. f_equal.
  unfold History.push; cbn [History._states]. f_equal.
  rewrite length_app; simpl length.
  replace (length texts + 1) with (S (length texts)) by lia.
  rewrite (seq_S (S (length texts))), map_app.
  f_equal.
  - apply map_ext_in. intros i Hi. apply in_seq in Hi.
    rewrite take_app_le by lia. reflexivity.
  - cbn [map Nat.add].
    rewrite take_ge by (rewrite length_app; simpl; lia). reflexivity.
Qed.

(** Popping [k] of [n] pushed states back into the Editor, where the
    [i]-th pushed state is the state of [g i]. *)
Lemma undos_pushed (g : nat -> Editor.t) (k : nat) :
  forall (n : nat) (e : Editor.t),
    1 <= k <= n ->
    Usage.undos k
      {| Usage.editor := e;
         Usage.history :=
           {| History._states := map (fun i => Editor.get_state (g i)) (seq 0 n) |} |}
    = Ok {| Usage.editor := g (n - k);
            Usage.history :=
              {| History._states :=
                   map (fun i => Editor.get_state (g i)) (seq 0 (n - k)) |} |}.
Proof.
  induction k as [| k IH]; intros n e Hk; [lia |].
  destruct n as [| n]; [lia |].
  cbn [Usage.undos]. unfold Usage.undo; cbn [Usage.history Usage.editor].
  rewrite seq_S, map_app; cbn [map Nat.add]. rewrite pop_snoc.
  rewrite restore_get_state. cbn [bind].
  replace (S n - S k) with (n - k) by lia.
  destruct k as [| k].
  - cbn [Usage.undos]. rewrite Nat.sub_0_r. reflexivity.
  - apply IH. lia.
Qed.

(** What the usage cell prints after its first, second and third
    [restore_state(history.pop())]. *)
Example usage_cell_output :
  map (fun n => Usage.read_after_undos n
                  (Usage.edits ["Hello, "; "world!"] Usage.start))
      [1; 2; 3]
  = [Ok "Hello, world!"; Ok "Hello, "; Ok ""].
Proof. reflexivity. Qed.

(** C1, as stated, fails in the concrete scenario.  With the initial state
    pushed first and a push after each of the two [add_text] calls, the first
    undo and restore does not give ["Hello, "] and the second does not give
    the empty string: the state on top of the History is the current one. *)
Lemma first_undo_is_not_previous_state :
  ~ (Usage.read_after_undos 1 (Usage.edits ["Hello, "; "world!"] Usage.start)
     = Ok "Hello, "
     /\ Usage.read_after_undos 2 (Usage.edits ["Hello, "; "world!"] Usage.start)
        = Ok "").
Proof. intros [H _]. vm_compute in H. discriminate H. Qed.

(** C1, amended.  After the initial push and [N] [add_text] calls each
    followed by a push, the [k]-th undo and restore, for [k] from 1 to
    [N + 1], returns normally and leaves the Editor in its state after the
    first [N + 1 - k] [add_text] calls, with the older states still in the
    History in order.  So the first undo gives back the current state, the
    states come back in strict reverse chronological order, and it is the
    [(N + 1)]-th undo that gives the initial, empty content. *)
Theorem undos_reverse_chronological (texts : list string) (k : nat)
    (Hk : 1 <= k <= S (length texts)) :
  Usage.undos k (Usage.edits texts Usage.start)
  = Ok {| Usage.editor := Usage.applied (take (S (length texts) - k) texts);
          Usage.history :=
            {| History._states :=
                 map (fun i => Editor.get_state (Usage.applied (take i texts)))
                     (seq 0 (S (length texts) - k)) |} |}
  /\ Usage.read_after_undos k (Usage.edits texts Usage.start)
     = Ok (Editor.get_content
             (Usage.applied (take (S (length texts) - k) texts)))
  /\ Usage.read_after_undos (S (length texts)) (Usage.edits texts Usage.start)
     = Ok "".
Proof.
  unfold Usage.read_after_undos.
  rewrite edits_start.
  rewrite (undos_pushed (fun i => Usage.applied (take i texts)) k _ _ Hk).
  rewrite (undos_pushed (fun i => Usage.applied (take i texts))
             (S (length texts)) (S (length texts))) by lia.
  rewrite Nat.sub_diag.
  repeat split.
Qed.

Lemma undos_reverse_chronological_witness :
  1 <= 2 <= 3
  /\ Usage.read_after_undos 2 (Usage.edits ["Hello, "; "world!"] Usage.start)
     = Ok "Hello, "
  /\ Usage.read_after_undos 3 (Usage.edits ["Hello, "; "world!"] Usage.start)
     = Ok "".
Proof.
  assert (Hk : 1 <= 2 <= 3) by (split; repeat constructor).
  split; [exact Hk |].
  exact (proj2 (undos_reverse_chronological ["Hello, "; "world!"] 2 Hk)).
Defined.

(** ** The caretaker has one sequence and two methods *)

Section History_sequence.

Context {A : Type}.
Implicit Types (h : History.t A) (state : A).

Lemma pop_removelast h :
  History._states (snd (History.pop h)) = removelast (History._states h).
Proof.
  destruct h as [l]. destruct l as [| x l _] using rev_ind; [reflexivity |].
  rewrite pop_snoc. cbn [snd History._states].
  rewrite removelast_last. reflexivity.
Qed.

Lemma call_redo h :
  History.call "redo" [] h = Some (Raise AttributeError, h).
Proof. reflexivity. Qed.

Lemma call_push state h :
  History.call "push" [state] h = Some (Ok None, History.push state h).
Proof. reflexivity. Qed.

Lemma pushes_states (states : list A) h :
  History._states (History.pushes states h) = History._states h ++ states.
Proof.
  revert h. induction states as [| x states IH]; intros h.
  - cbn. rewrite app_nil_r. reflexivity.
  - unfold History.pushes in *. cbn [foldl]. rewrite IH.
    unfold History.push; cbn [History._states].
    rewrite <- app_assoc. reflexivity.
Qed.

Lemma run_app (ops1 ops2 : list (History.op A)) h :
  History.run (ops1 ++ ops2) h
  = (fst (History.run ops1 h) ++ fst (History.run ops2 (snd (History.run ops1 h))),
     snd (History.run ops2 (snd (History.run ops1 h)))).
Proof.
  revert h. induction ops1 as [| o ops1 IH]; intros h.
  - cbn. destruct (History.run ops2 h); reflexivity.
  - destruct o as [state |]; cbn [app History.run].
    + apply IH.
    + destruct (History.pop h) as [r h']. rewrite IH.
      destruct (History.run ops1 h') as [rs1 h1]. reflexivity.
Qed.

Lemma pops_all (l : list A) :
  History.pops (length l) {| History._states := l |}
  = (map Some (rev l), History.__init__).
Proof.
  unfold History.pops.
  induction l as [| x l IH] using rev_ind; [reflexivity |].
  rewrite length_app, Nat.add_comm. cbn [length Nat.add replicate History.run].
  rewrite pop_snoc, IH, rev_app_distr. reflexivity.
Qed.

Lemma pops_empty (m : nat) :
  History.pops m (@History.__init__ A) = (replicate m None, History.__init__).
Proof.
  unfold History.pops. induction m as [| m IH]; [reflexivity |].
  cbn [replicate History.run]. rewrite (pop_empty History.__init__ eq_refl), IH.
  reflexivity.
Qed.

Lemma succeeded_Some_None (l : list A) (m : nat) :
  History.succeeded (map Some l ++ replicate m None) = length l.
Proof.
  unfold History.succeeded. rewrite filter_app, length_app.
  replace (filter is_Some (replicate m (@None A))) with (@nil (option A)).
  - rewrite Nat.add_0_r. induction l as [| x l IH]; [reflexivity |].
    cbn [map]. rewrite filter_cons_True by (eexists; reflexivity).
    cbn [length]. rewrite IH. reflexivity.
  - induction m as [| m IH]; [reflexivity |].
    cbn [replicate]. rewrite filter_cons_False by (intros [? ?]; discriminate).
    exact IH.
Qed.

End History_sequence.

(** C3, as stated, fails: there is no redo to signal an empty history.
    After a push, an undo and another push, calling [redo] on the History
    does not return [None]; it raises [AttributeError]. *)
Lemma redo_after_push_does_not_signal_empty :
  ~ (fst <$> History.call "redo" []
       (History.push (EditorState.__init__ "Hello, world!")
          (snd (History.pop
                  (History.push (EditorState.__init__ "Hello, ")
                     History.__init__))))
     = Some (Ok None)).
Proof. vm_compute. discriminate. Qed.

(** C3, amended.  The History keeps a single sequence and has no redo
    operation.  A push only appends to that sequence, and an undo drops the
    snapshot it returns from the History.  So after an undo followed by a
    push the sequence is the one before the undo without its last entry,
    followed by the pushed snapshot; the next undo returns the pushed
    snapshot; and a call of [redo] raises [AttributeError]. *)
Theorem push_after_undo_discards_undone {A : Type} (h : History.t A) (s : A) :
  History._states (History.push s h) = History._states h ++ [s]
  /\ History._states (History.push s (snd (History.pop h)))
     = removelast (History._states h) ++ [s]
  /\ History.pop (History.push s (snd (History.pop h)))
     = (Some s, snd (History.pop h))
  /\ History.call "redo" [] (History.push s (snd (History.pop h)))
     = Some (Raise AttributeError, History.push s (snd (History.pop h))).
Proof.
  split; [reflexivity |].
  split; [unfold History.push at 1; cbn [History._states];
          rewrite pop_removelast; reflexivity |].
  split; [apply pop_push | apply call_redo].
Qed.

(** C4, as stated, fails: an undo followed by a call of [redo] does not
    bring the History back.  [redo] raises and the History stays popped. *)
Lemma redo_does_not_invert_undo :
  ~ (snd <$> History.call "redo" []
       (snd (History.pop
               (History.push (EditorState.__init__ "Hello, ")
                  History.__init__)))
     = Some (History.push (EditorState.__init__ "Hello, ") History.__init__)).
Proof. vm_compute. discriminate. Qed.

(** C4, amended.  The History has no redo operation; what inverts an undo
    is pushing the returned snapshot back.  When the History is not empty,
    the undo of the usage cell returns normally, pushing the snapshot it
    popped gives exactly the History before the undo, restoring the Editor
    from that snapshot again leaves it in the restored state, and when the
    Editor was in the state of the top snapshot before the undo (as it is
    right after [add_text] and push) the whole session is as before. *)
Theorem push_back_inverts_undo (s : Usage.t)
    (Hne : History._states (Usage.history s) <> []) :
  exists (st : EditorState.t) (s1 : Usage.t),
    History.pop (Usage.history s) = (Some st, Usage.history s1)
    /\ Usage.undo s = Ok s1
    /\ History.push st (Usage.history s1) = Usage.history s
    /\ History.call "push" [st] (Usage.history s1)
       = Some (Ok None, Usage.history s)
    /\ Editor.restore_state (Some st) (Usage.editor s1) = Ok (Usage.editor s1)
    /\ (Editor.get_state (Usage.editor s) = st ->
        {| Usage.editor := Usage.editor s1;
           Usage.history := History.push st (Usage.history s1) |} = s).
Proof.
  destruct s as [e h]; cbn [Usage.history Usage.editor] in *.
  destruct (pop_nonempty h Hne) as (st & h' & Hpop & Hpush).
  exists st, {| Usage.editor := {| Editor._content := EditorState.get_content st |};
                Usage.history := h' |}.
  cbn [Usage.history Usage.editor].
  unfold Usage.undo; cbn [Usage.history Usage.editor]. rewrite Hpop.
  rewrite call_push, Hpush.
  repeat split.
  intros <-. destruct e; reflexivity.
Qed.

Lemma push_back_inverts_undo_witness :
  exists (st : EditorState.t) (s1 : Usage.t),
    History.pop (Usage.history (Usage.edit "Hello, " Usage.start))
    = (Some st, Usage.history s1)
    /\ Usage.undo (Usage.edit "Hello, " Usage.start) = Ok s1
    /\ History.push st (Usage.history s1)
       = Usage.history (Usage.edit "Hello, " Usage.start)
    /\ History.call "push" [st] (Usage.history s1)
       = Some (Ok None, Usage.history (Usage.edit "Hello, " Usage.start))
    /\ Editor.restore_state (Some st) (Usage.editor s1) = Ok (Usage.editor s1)
    /\ (Editor.get_state (Usage.editor (Usage.edit "Hello, " Usage.start)) = st ->
        {| Usage.editor := Usage.editor s1;
           Usage.history := History.push st (Usage.history s1) |}
        = Usage.edit "Hello, " Usage.start).
Proof.
  apply (push_back_inverts_undo (Usage.edit "Hello, " Usage.start)).
  cbn. discriminate.
Defined.

(** *** A History with a maximum capacity *)




(** The push of the model does what the spec's sentence says: with room
    left it only appends; on a full History of capacity at least one it
    discards exactly the oldest entry; and the undo count never exceeds the
    capacity afterwards. *)
Lemma bounded_push_cases {A : Type} (K : nat) (h : BoundedHistory.t A)
    (snapshot : A) :
  BoundedHistory.capacity h = Some K ->
  (length (BoundedHistory.undo_sequence h) < K ->
   BoundedHistory.undo_sequence (BoundedHistory.push snapshot h)
   = BoundedHistory.undo_sequence h ++ [snapshot])
  /\ (1 <= K -> length (BoundedHistory.undo_sequence h) = K ->
      BoundedHistory.undo_sequence (BoundedHistory.push snapshot h)
      = drop 1 (BoundedHistory.undo_sequence h) ++ [snapshot])
  /\ length (BoundedHistory.undo_sequence (BoundedHistory.push snapshot h)) <= K.
Proof.
  intros Hcap. cbn [BoundedHistory.push BoundedHistory.undo_sequence].
  rewrite Hcap. unfold BoundedHistory.within_capacity.
  rewrite length_app. cbn [length].
  split; [| split].
  - intros Hlt.
    replace (length (BoundedHistory.undo_sequence h) + 1 - K) with 0 by lia.
    reflexivity.
  - intros HK Hfull.
    replace (length (BoundedHistory.undo_sequence h) + 1 - K) with 1 by lia.
    apply drop_app_le. lia.
  - rewrite length_drop, length_app. cbn [length]. lia.
Qed.



(** ** The notebook's History is unbounded *)

(** X23.  The notebook's History has no capacity and evicts nothing.  After
    any number [n] of pushes onto an empty History, the next [n] undo calls
    all succeed and return the pushed snapshots newest first, so the oldest
    one is returned by the [n]-th call; every undo call after that returns
    [None]. *)
Theorem history_keeps_every_push {A : Type} (states : list A) (m : nat) :
  History.pops (length states + m) (History.pushes states History.__init__)
  = (map Some (rev states) ++ replicate m None, History.__init__)
  /\ History.succeeded
       (fst (History.pops (length states + m)
               (History.pushes states History.__init__)))
     = length states
  /\ fst (History.pops (length states)
            (History.pushes states History.__init__)) !! (length states - 1)
     = Some <$> head states.
Proof.
  assert (E : History.pushes states History.__init__
              = {| History._states := states |}).
  { pose proof (pushes_states states History.__init__) as H.
    destruct (History.pushes states History.__init__) as [l].
    cbn in H. rewrite H. reflexivity. }
  rewrite E.
  assert (P : History.pops (length states + m) {| History._states := states |}
              = (map Some (rev states) ++ replicate m None, History.__init__)).
  { unfold History.pops. rewrite replicate_add, run_app.
    fold (History.pops (length states) {| History._states := states |}).
    rewrite pops_all. cbn [fst snd].
    fold (History.pops m (@History.__init__ A)). rewrite pops_empty.
    reflexivity. }
  split; [exact P |].
  split; [rewrite P; cbn [fst]; rewrite succeeded_Some_None; apply length_rev |].
  rewrite pops_all. cbn [fst].
  destruct states as [| x states]; [reflexivity |].
  cbn [length rev head fmap option_fmap option_map map].
  rewrite map_app.
  replace (S (length states) - 1) with (length (map Some (rev states)) + 0)
    by (rewrite length_map, length_rev; lia).
  rewrite lookup_app_r by lia.
  replace (length (map Some (rev states)) + 0 - length (map Some (rev states)))
    with 0 by lia.
  reflexivity.
Qed.

(** ** The two designs compared *)

Lemma mirrors_start :
  Compare.mirrors Before.Editor.__init__ Compare.start_after.
Proof. split; reflexivity. Qed.

Lemma mirrors_run (cs : list Compare.command) :
  forall (e : Before.Editor.t) (s : Usage.t),
    Compare.mirrors e s ->
    Compare.undo_guarded (length (Before.Editor._history e)) cs = true ->
    exists s',
      Compare.run_from cs s = Ok s'
      /\ Compare.mirrors (foldl (fun e c => Compare.step_before c e) e cs) s'.
Proof.
  induction cs as [| c cs IH]; intros e s Hm Hg.
  - exists s. split; [reflexivity | exact Hm].
  - destruct e as [content saved], s as [[content'] [states]].
    destruct Hm as [Hc Hs]; cbn in Hc, Hs; subst content' states.
    destruct c as [words |]; cbn [Compare.undo_guarded] in Hg.
    + cbn [Compare.run_from Compare.step_after bind foldl Compare.step_before].
      apply IH.
      * split; [reflexivity |].
        cbn. rewrite map_app. reflexivity.
      * cbn. rewrite length_app, Nat.add_comm. exact Hg.
    + cbn [Before.Editor._history] in Hg.
      destruct saved as [| x saved _] using rev_ind; [discriminate Hg |].
      rewrite length_app, Nat.add_comm in Hg. cbn [length Nat.add] in Hg.
      cbn [Compare.run_from Compare.step_after foldl Compare.step_before].
      unfold Usage.undo, Before.Editor.undo.
      cbn [Usage.history Usage.editor Before.Editor._history].
      rewrite map_app; cbn [map]. rewrite pop_snoc, list_pop_snoc.
      cbn [Editor.restore_state bind fst].
      apply IH; [split; reflexivity | exact Hg].
Qed.

Lemma undo_guarded_take (cs : list Compare.command) :
  forall (depth n : nat),
    Compare.undo_guarded depth cs = true ->
    Compare.undo_guarded depth (take n cs) = true.
Proof.
  induction cs as [| c cs IH]; intros depth n Hg.
  - destruct n; reflexivity.
  - destruct n as [| n]; [reflexivity |].
    destruct c as [words |]; cbn [take Compare.undo_guarded] in *.
    + apply IH, Hg.
    + destruct depth as [| depth]; [discriminate Hg | apply IH, Hg].
Qed.

Lemma unguarded_run_raises (cs : list Compare.command) :
  forall (e : Before.Editor.t) (s : Usage.t),
    Compare.mirrors e s ->
    Compare.undo_guarded (length (Before.Editor._history e)) cs = false ->
    Compare.run_from cs s = Raise AttributeError.
Proof.
  induction cs as [| c cs IH]; intros e s Hm Hg; [discriminate Hg |].
  destruct e as [content saved], s as [[content'] [states]].
  destruct Hm as [Hc Hs]; cbn in Hc, Hs; subst content' states.
  destruct c as [words |]; cbn [Compare.undo_guarded] in Hg.
  - cbn [Compare.run_from Compare.step_after bind].
    apply (IH (Before.Editor.add_text words
                 {| Before.Editor._content := content;
                    Before.Editor._history := saved |})).
    + split; [reflexivity |]. cbn. rewrite map_app. reflexivity.
    + cbn. rewrite length_app, Nat.add_comm. exact Hg.
  - cbn [Before.Editor._history] in Hg.
    destruct saved as [| x saved _] using rev_ind; [reflexivity |].
    rewrite length_app, Nat.add_comm in Hg. cbn [length Nat.add] in Hg.
    cbn [Compare.run_from Compare.step_after].
    unfold Usage.undo. cbn [Usage.history Usage.editor].
    rewrite map_app; cbn [map]. rewrite pop_snoc.
    cbn [Editor.restore_state bind].
    apply (IH {| Before.Editor._content := x;
                 Before.Editor._history := saved |});
      [split; reflexivity | exact Hg].
Qed.

(** C10, as stated, fails on the one-command sequence [Undo]: the first
    design leaves its content as it was, the second design raises, because
    [history.pop()] returns [None] and [restore_state] calls [get_content]
    on it. *)
Lemma undo_on_empty_history_separates_designs :
  ~ (Compare.read_after [Compare.Undo]
     = Ok (Compare.read_before [Compare.Undo])).
Proof. vm_compute. discriminate. Qed.

(** C10, amended.  For every sequence of [add_text] and undo commands in
    which no undo is issued while nothing is saved, the second design never
    raises and [get_content()] agrees between the two designs after every
    prefix of the sequence. *)
Theorem designs_agree_on_guarded_commands
    (cs : list Compare.command) (n : nat)
    (Hg : Compare.undo_guarded 0 cs = true) :
  Compare.read_after (take n cs) = Ok (Compare.read_before (take n cs)).
Proof.
  pose proof (undo_guarded_take cs 0 n Hg) as Hn.
  destruct (mirrors_run (take n cs) _ _ mirrors_start Hn) as (s' & Hrun & Hc & _).
  unfold Compare.read_after, Compare.read_before, Compare.run_after,
    Compare.run_before.
  rewrite Hrun. cbn [bind]. unfold Usage.read, Editor.get_content.
  rewrite Hc. reflexivity.
Qed.

Lemma designs_agree_on_guarded_commands_witness :
  Compare.read_after
    (take 3 [Compare.AddText "Hello, "; Compare.AddText "world!";
             Compare.Undo; Compare.Undo])
  = Ok (Compare.read_before
          (take 3 [Compare.AddText "Hello, "; Compare.AddText "world!";
                   Compare.Undo; Compare.Undo])).
Proof.
  apply (designs_agree_on_guarded_commands
           [Compare.AddText "Hello, "; Compare.AddText "world!";
            Compare.Undo; Compare.Undo] 3).
  reflexivity.
Defined.

(** ** Mementos as heap objects *)

Lemma holds_distinct (e s : Store.loc) (c : string) (h : Store.heap) :
  Store.holds e s c h -> e <> s.
Proof. intros [[current He] Hs] ->. congruence. Qed.

Lemma exec_holds (e s : Store.loc) (c : string) (call : Store.call)
    (h : Store.heap) :
  Store.holds e s c h -> Store.holds e s c (snd (Store.exec e call h)).
Proof.
  intros Hh. pose proof (holds_distinct e s c h Hh) as Hne.
  destruct Hh as [[current He] Hs].
  destruct call as [words | | state]; cbn [Store.exec].
  - unfold Store.add_text. rewrite He. cbn [snd]. split.
    + eexists. apply lookup_insert_eq.
    + rewrite lookup_insert_ne by exact Hne. exact Hs.
  - unfold Store.get_state, Store.EditorState_new. rewrite He. cbn [snd].
    pose proof (is_fresh (dom h)) as Hf.
    assert (fresh (dom h) <> e) as He'.
    { intros E. apply Hf. rewrite E. apply elem_of_dom. eexists. exact He. }
    assert (fresh (dom h) <> s) as Hs'.
    { intros E. apply Hf. rewrite E. apply elem_of_dom. eexists. exact Hs. }
    split.
    + exists current. rewrite lookup_insert_ne by exact He'. exact He.
    + rewrite lookup_insert_ne by exact Hs'. exact Hs.
  - unfold Store.restore_state. rewrite He.
    destruct (Store.get_content state h) as [content | x]; cbn [snd].
    + split.
      * eexists. apply lookup_insert_eq.
      * rewrite lookup_insert_ne by exact Hne. exact Hs.
    + split; [eexists; exact He | exact Hs].
Qed.

Lemma execs_holds (e s : Store.loc) (c : string) (calls : list Store.call) :
  forall h : Store.heap,
    Store.holds e s c h -> Store.holds e s c (Store.execs e calls h).
Proof.
  induction calls as [| call calls IH]; intros h Hh; [exact Hh |].
  unfold Store.execs in *. cbn [foldl]. apply IH, exec_holds, Hh.
Qed.

(** The heap embedding and the value embedding of the Editor agree: a call
    on the Editor object does to its [_content] what the corresponding
    function of [After.Editor] does to the Editor value. *)
Lemma store_add_text_agrees (h : Store.heap) (e : Store.loc)
    (content words : string) :
  h !! e = Some (Store.ObjEditor content) ->
  snd (Store.add_text e words h) !! e
  = Some (Store.ObjEditor
            (Editor.get_content
               (Editor.add_text words {| Editor._content := content |}))).
Proof.
  intros He. unfold Store.add_text. rewrite He. apply lookup_insert_eq.
Qed.

Lemma store_restore_state_agrees (h : Store.heap) (e s : Store.loc)
    (content saved : string) :
  h !! e = Some (Store.ObjEditor content) ->
  h !! s = Some (Store.ObjEditorState saved) ->
  exists e',
    Editor.restore_state (Some (EditorState.__init__ saved))
      {| Editor._content := content |} = Ok e'
    /\ snd (Store.restore_state e (Store.VRef s) h) !! e
       = Some (Store.ObjEditor (Editor.get_content e')).
Proof.
  intros He Hs. eexists. split; [reflexivity |].
  unfold Store.restore_state, Store.get_content. rewrite He, Hs.
  apply lookup_insert_eq.
Qed.

Lemma store_restore_None_agrees (h : Store.heap) (e : Store.loc)
    (content : string) :
  h !! e = Some (Store.ObjEditor content) ->
  Store.restore_state e Store.VNone h = (Raise AttributeError, h)
  /\ Editor.restore_state None {| Editor._content := content |}
     = Raise AttributeError.
Proof.
  intros He. unfold Store.restore_state. rewrite He. split; reflexivity.
Qed.

(** C7.  A memento built by [get_state()] is a new object holding the
    content the Editor has at that moment, and no later sequence of
    [add_text], [get_state] and [restore_state] calls on the Editor, with
    any arguments, changes that object: [get_content()] on it keeps
    returning the captured content. *)
Theorem snapshot_never_altered (h : Store.heap) (e : Store.loc)
    (content : string) (calls : list Store.call)
    (He : h !! e = Some (Store.ObjEditor content)) :
  exists (s : Store.loc) (h1 : Store.heap),
    Store.get_state e h = (Ok (Store.VRef s), h1)
    /\ h !! s = None
    /\ Store.get_content (Store.VRef s) h1 = Ok content
    /\ Store.execs e calls h1 !! s = Some (Store.ObjEditorState content)
    /\ Store.get_content (Store.VRef s) (Store.execs e calls h1) = Ok content.
Proof.
  exists (fresh (dom h)), (<[fresh (dom h) := Store.ObjEditorState content]> h).
  assert (Hfresh : h !! fresh (dom h) = None)
    by (apply not_elem_of_dom, is_fresh).
  assert (Hh : Store.holds e (fresh (dom h)) content
                 (<[fresh (dom h) := Store.ObjEditorState content]> h)).
  { split.
    - exists content. rewrite lookup_insert_ne by congruence. exact He.
    - apply lookup_insert_eq. }
  pose proof (execs_holds _ _ _ calls _ Hh) as [_ Hs].
  split; [unfold Store.get_state, Store.EditorState_new; rewrite He; reflexivity |].
  split; [exact Hfresh |].
  split; [unfold Store.get_content; rewrite lookup_insert_eq; reflexivity |].
  split; [exact Hs |].
  unfold Store.get_content. rewrite Hs. reflexivity.
Qed.

Lemma snapshot_never_altered_witness :
  exists (s : Store.loc) (h1 : Store.heap),
    Store.get_state 1 {[ 1%positive := Store.ObjEditor "Hello, " ]}
    = (Ok (Store.VRef s), h1)
    /\ ({[ 1%positive := Store.ObjEditor "Hello, " ]} : Store.heap) !! s = None
    /\ Store.get_content (Store.VRef s) h1 = Ok "Hello, "
    /\ Store.execs 1
         [Store.AddText "world!"; Store.GetState; Store.RestoreState Store.VNone;
          Store.RestoreState (Store.VRef 1)] h1 !! s
       = Some (Store.ObjEditorState "Hello, ")
    /\ Store.get_content (Store.VRef s)
         (Store.execs 1
            [Store.AddText "world!"; Store.GetState;
             Store.RestoreState Store.VNone; Store.RestoreState (Store.VRef 1)]
            h1)
       = Ok "Hello, ".
Proof.
  apply (snapshot_never_altered {[ 1%positive := Store.ObjEditor "Hello, " ]} 1).
  reflexivity.
Defined.

(** * Further properties of the notebook's code *)

(** ** The first design on its own *)

Lemma append_empty_r (s : string) : s +:+ "" = s.
Proof.
  induction s as [| a s IH]; [reflexivity |].
  change (String a (s +:+ "") = String a s). f_equal. exact IH.
Qed.

Lemma append_assoc (s1 s2 s3 : string) :
  (s1 +:+ s2) +:+ s3 = s1 +:+ (s2 +:+ s3).
Proof.
  induction s1 as [| a s1 IH]; [reflexivity |].
  change (String a ((s1 +:+ s2) +:+ s3) = String a (s1 +:+ (s2 +:+ s3))).
  f_equal. exact IH.
Qed.

Lemma join_cons (words : string) (texts : list string) :
  String.concat "" (words :: texts) = words +:+ String.concat "" texts.
Proof.
  destruct texts as [| w texts].
  - cbn [String.concat]. symmetry. apply append_empty_r.
  - reflexivity.
Qed.

Lemma before_undo_add_text (words : string) (e : Before.Editor.t) :
  Before.Editor.undo (Before.Editor.add_text words e) = (e, []).
Proof.
  unfold Before.Editor.undo, Before.Editor.add_text.
  cbn [Before.Editor._history]. rewrite list_pop_snoc. destruct e; reflexivity.
Qed.

Lemma add_texts_snoc (texts : list string) (words : string) (e : Before.Editor.t) :
  BeforeUsage.add_texts (texts ++ [words]) e
  = Before.Editor.add_text words (BeforeUsage.add_texts texts e).
Proof. unfold BeforeUsage.add_texts. rewrite foldl_snoc. reflexivity. Qed.

Lemma before_undos_app (a b : nat) (e : Before.Editor.t) :
  BeforeUsage.undos (a + b) e
  = (fst (BeforeUsage.undos b (fst (BeforeUsage.undos a e))),
     snd (BeforeUsage.undos a e)
     ++ snd (BeforeUsage.undos b (fst (BeforeUsage.undos a e)))).
Proof.
  revert e. induction a as [| a IH]; intros e.
  - cbn. destruct (BeforeUsage.undos b e); reflexivity.
  - cbn [Nat.add BeforeUsage.undos].
    destruct (Before.Editor.undo e) as [e1 out1]. rewrite IH.
    destruct (BeforeUsage.undos a e1) as [e2 out2]. cbn [fst snd].
    rewrite app_assoc. reflexivity.
Qed.

Lemma before_undos_added (later : list string) :
  forall (earlier : list string) (e : Before.Editor.t),
    BeforeUsage.undos (length later) (BeforeUsage.add_texts (earlier ++ later) e)
    = (BeforeUsage.add_texts earlier e, []).
Proof.
  induction later as [| words later IH] using rev_ind; intros earlier e.
  - rewrite app_nil_r. reflexivity.
  - rewrite length_app, Nat.add_comm. cbn [length Nat.add BeforeUsage.undos].
    rewrite app_assoc, add_texts_snoc, before_undo_add_text, IH. reflexivity.
Qed.

Lemma before_undos_fresh (m : nat) :
  BeforeUsage.undos m Before.Editor.__init__
  = (Before.Editor.__init__, replicate m "No states to undo.").
Proof.
  induction m as [| m IH]; [reflexivity |].
  cbn [BeforeUsage.undos].
  rewrite (before_undo_empty Before.Editor.__init__ eq_refl), IH.
  reflexivity.
Qed.

(** X1.  In the first design an [undo()] right after an [add_text(words)]
    gives back the Editor as it was before the [add_text], content and
    history, and prints nothing. *)
Theorem before_undo_inverts_add_text (words : string) (e : Before.Editor.t) :
  Before.Editor.undo (Before.Editor.add_text words e) = (e, [])
  /\ Before.Editor.get_content
       (fst (Before.Editor.undo (Before.Editor.add_text words e)))
     = Before.Editor.get_content e.
Proof. rewrite before_undo_add_text. split; reflexivity. Qed.

Lemma before_undos_take (texts : list string) (k : nat) (e : Before.Editor.t) :
  k <= length texts ->
  BeforeUsage.undos k (BeforeUsage.add_texts texts e)
  = (BeforeUsage.add_texts (take (length texts - k) texts) e, []).
Proof.
  intros Hk.
  pose proof (before_undos_added (drop (length texts - k) texts)
                (take (length texts - k) texts) e) as H.
  rewrite take_drop, length_drop in H.
  replace (length texts - (length texts - k)) with k in H by lia.
  exact H.
Qed.

(** X2.  In the first design, after [add_text] has been called with each of
    [texts] on any Editor, [k] calls of [undo()], for [k] up to the number of
    texts, print nothing and leave the Editor exactly as it was after the
    first [N - k] calls of [add_text]. *)
Theorem before_undos_rewind (texts : list string) (k : nat) (e : Before.Editor.t)
    (Hk : k <= length texts) :
  BeforeUsage.undos k (BeforeUsage.add_texts texts e)
  = (BeforeUsage.add_texts (take (length texts - k) texts) e, []).
Proof. exact (before_undos_take texts k e Hk). Qed.

Lemma before_undos_rewind_witness :
  1 <= length ["Hello, "; "world!"]
  /\ BeforeUsage.undos 1
       (BeforeUsage.add_texts ["Hello, "; "world!"] Before.Editor.__init__)
     = ({| Before.Editor._content := "Hello, ";
           Before.Editor._history := [""] |}, []).
Proof.
  assert (Hk : 1 <= length ["Hello, "; "world!"]) by (repeat constructor).
  split; [exact Hk |].
  exact (before_undos_rewind ["Hello, "; "world!"] 1 Before.Editor.__init__ Hk).
Defined.

(** X3.  In the first design, on a fresh Editor, [N] calls of [add_text]
    followed by [N + m] calls of [undo()] end in the fresh Editor again, with
    empty content and empty history, and print exactly [m] times the line
    "No states to undo.": the undos that find the history empty change
    nothing. *)
Theorem before_undos_past_the_start (texts : list string) (m : nat) :
  BeforeUsage.undos (length texts + m)
    (BeforeUsage.add_texts texts Before.Editor.__init__)
  = (Before.Editor.__init__, replicate m "No states to undo.").
Proof.
  pose proof (before_undos_added texts [] Before.Editor.__init__) as H.
  cbn [app] in H.
  rewrite before_undos_app, H.
  cbn [fst snd BeforeUsage.add_texts foldl]. rewrite before_undos_fresh.
  reflexivity.
Qed.

Lemma before_content_add_texts (texts : list string) :
  forall e : Before.Editor.t,
    Before.Editor._content (BeforeUsage.add_texts texts e)
    = Before.Editor._content e +:+ String.concat "" texts.
Proof.
  induction texts as [| words texts IH]; intros e.
  - cbn. symmetry. apply append_empty_r.
  - change (BeforeUsage.add_texts (words :: texts) e)
      with (BeforeUsage.add_texts texts (Before.Editor.add_text words e)).
    rewrite IH, join_cons. cbn [Before.Editor.add_text Before.Editor._content].
    apply append_assoc.
Qed.

Lemma after_content_add_texts (texts : list string) :
  forall e : Editor.t,
    Editor._content (foldl (fun e words => Editor.add_text words e) e texts)
    = Editor._content e +:+ String.concat "" texts.
Proof.
  induction texts as [| words texts IH]; intros e.
  - cbn. symmetry. apply append_empty_r.
  - cbn [foldl]. rewrite IH, join_cons.
    cbn [Editor.add_text Editor._content]. apply append_assoc.
Qed.

(** X4.  In both designs the content after calling [add_text] with each of
    [texts] on a fresh Editor is the texts joined in order, that is
    ["".join(texts)]. *)
Theorem content_is_joined_texts (texts : list string) :
  Before.Editor.get_content
    (BeforeUsage.add_texts texts Before.Editor.__init__)
  = String.concat "" texts
  /\ Editor.get_content (Usage.applied texts) = String.concat "" texts.
Proof.
  split.
  - unfold Before.Editor.get_content. rewrite before_content_add_texts.
    reflexivity.
  - unfold Editor.get_content, Usage.applied.
    rewrite after_content_add_texts. reflexivity.
Qed.

(** X5.  In the first design the history after [add_text] has been called
    with each of [texts] on a fresh Editor holds one entry per call: the
    content just before that call, oldest first.  The [i]-th entry is the
    first [i] texts joined. *)
Theorem before_history_is_prefix_joins (texts : list string) :
  Before.Editor._history (BeforeUsage.add_texts texts Before.Editor.__init__)
  = map (fun i => String.concat "" (take i texts)) (seq 0 (length texts)).
Proof.
  induction texts as [| words texts IH] using rev_ind; [reflexivity |].
  rewrite add_texts_snoc. cbn [Before.Editor.add_text Before.Editor._history].
  rewrite IH, before_content_add_texts. cbn [Before.Editor.__init__ Before.Editor._content].
  rewrite length_app, Nat.add_comm. cbn [length Nat.add].
  rewrite seq_S, map_app. f_equal.
  - apply map_ext_in. intros i Hi. apply in_seq in Hi.
    rewrite take_app_le by lia. reflexivity.
  - cbn [map Nat.add]. rewrite take_app_length. reflexivity.
Qed.

Lemma before_reachable (cs : list Compare.command) :
  exists texts,
    Compare.run_before cs = BeforeUsage.add_texts texts Before.Editor.__init__.
Proof.
  unfold Compare.run_before.
  induction cs as [| c cs [texts IH]] using rev_ind; [exists []; reflexivity |].
  rewrite foldl_snoc, IH. destruct c as [words |]; cbn [Compare.step_before].
  - exists (texts ++ [words]). rewrite add_texts_snoc. reflexivity.
  - destruct texts as [| words texts _] using rev_ind.
    + exists []. reflexivity.
    + exists texts. rewrite add_texts_snoc, before_undo_add_text. reflexivity.
Qed.

(** X6.  In the first design, whatever sequence of [add_text] and [undo]
    calls a fresh Editor has gone through, it is in a state that [add_text]
    calls alone produce, and the next [undo()] only trims the end of the
    content: the content before the undo is the content after it followed by
    some suffix. *)
Theorem before_undo_only_trims (cs : list Compare.command) :
  exists (texts : list string) (suffix : string),
    Compare.run_before cs
    = BeforeUsage.add_texts texts Before.Editor.__init__
    /\ Before.Editor.get_content (Compare.run_before cs)
       = Before.Editor.get_content
           (fst (Before.Editor.undo (Compare.run_before cs))) +:+ suffix.
Proof.
  destruct (before_reachable cs) as [texts E]. rewrite E.
  exists texts.
  destruct texts as [| words texts _] using rev_ind.
  - exists "". split; reflexivity.
  - exists words. split; [reflexivity |].
    rewrite add_texts_snoc, before_undo_add_text. reflexivity.
Qed.

(** ** The caretaker over whole sequences of operations *)

Lemma pops_pushes {A : Type} (states : list A) (h : History.t A) :
  History.pops (length states) (History.pushes states h)
  = (map Some (rev states), h).
Proof.
  unfold History.pops, History.pushes. revert h.
  induction states as [| x states IH] using rev_ind; intros h; [reflexivity |].
  rewrite foldl_snoc, length_app, Nat.add_comm.
  cbn [length Nat.add replicate History.run].
  rewrite pop_push, IH, rev_app_distr. reflexivity.
Qed.

(** X7.  Any number of pushes followed by the same number of [pop] calls
    returns the pushed states, newest first, none of them [None], and leaves
    the History exactly as it was before the pushes, whatever it held. *)
Theorem pushes_then_pops_restore {A : Type} (states : list A) (h : History.t A) :
  History.pops (length states) (History.pushes states h)
  = (map Some (rev states), h)
  /\ History.succeeded
       (fst (History.pops (length states) (History.pushes states h)))
     = length states.
Proof.
  rewrite pops_pushes. split; [reflexivity |]. cbn [fst].
  pose proof (succeeded_Some_None (rev states) 0) as H.
  cbn [replicate] in H. rewrite app_nil_r, length_rev in H. exact H.
Qed.

Lemma run_conserves {A : Type} (ops : list (History.op A)) :
  forall h : History.t A,
    HistoryTrace.returned (fst (History.run ops h))
      ++ History._states (snd (History.run ops h))
    ≡ₚ History._states h ++ HistoryTrace.pushed ops.
Proof.
  induction ops as [| o ops IH]; intros h.
  - cbn. rewrite app_nil_r. reflexivity.
  - destruct o as [state |]; cbn [History.run].
    + rewrite IH. unfold History.push; cbn [History._states].
      rewrite <- app_assoc. reflexivity.
    + destruct h as [l]. destruct l as [| x l _] using rev_ind.
      * rewrite (pop_empty {| History._states := [] |} eq_refl).
        specialize (IH {| History._states := [] |}).
        destruct (History.run ops {| History._states := [] |}) as [rs h'].
        exact IH.
      * rewrite pop_snoc. specialize (IH {| History._states := l |}).
        destruct (History.run ops {| History._states := l |}) as [rs h'].
        cbn [fst snd History._states HistoryTrace.pushed omap list_omap
               HistoryTrace.returned] in *.
        cbn. fold (HistoryTrace.returned rs). rewrite IH.
        rewrite <- app_assoc. cbn [app].
        apply Permutation_middle.
Qed.

(** X8.  A History neither loses nor invents states.  After any sequence of
    [push] and [pop] calls, the states returned by the [pop] calls together
    with the states still stored are, up to order, the states stored at the
    start together with the states pushed; so the number stored plus the
    number of [pop] calls that did not return [None] is the number stored at
    the start plus the number of pushes. *)
Theorem history_conserves_states {A : Type}
    (ops : list (History.op A)) (h : History.t A) :
  HistoryTrace.returned (fst (History.run ops h))
    ++ History._states (snd (History.run ops h))
  ≡ₚ History._states h ++ HistoryTrace.pushed ops
  /\ length (History._states (snd (History.run ops h)))
     + length (HistoryTrace.returned (fst (History.run ops h)))
     = length (History._states h) + length (HistoryTrace.pushed ops).
Proof.
  pose proof (run_conserves ops h) as H. split; [exact H |].
  apply Permutation_length in H. rewrite !length_app in H. lia.
Qed.

(** ** The usage cell past the last saved state, and the two usage cells *)

Lemma usage_undos_app (a b : nat) (s : Usage.t) :
  Usage.undos (a + b) s = bind (Usage.undos a s) (Usage.undos b).
Proof.
  revert s. induction a as [| a IH]; intros s; [reflexivity |].
  cbn [Nat.add Usage.undos]. destruct (Usage.undo s) as [s' | x]; cbn [bind].
  - apply IH.
  - reflexivity.
Qed.

Lemma usage_undos_empty (n : nat) (e : Editor.t) :
  Usage.undos (S n)
    {| Usage.editor := e; Usage.history := {| History._states := [] |} |}
  = Raise AttributeError.
Proof. reflexivity. Qed.

(** X9.  In the usage cell of the second design, after the initial push and
    [N] calls of [add_text] each followed by a push, [N + 1] undos succeed
    and any further [editor.restore_state(history.pop())] raises
    [AttributeError]: the History is empty, [pop()] returns [None], and
    nothing guards the restore. *)
Theorem usage_undos_past_the_start (texts : list string) (j : nat) :
  Usage.undos (S (length texts) + S j) (Usage.edits texts Usage.start)
  = Raise AttributeError
  /\ exists s, Usage.undos (S (length texts)) (Usage.edits texts Usage.start) = Ok s
              /\ History._states (Usage.history s) = [].
Proof.
  rewrite usage_undos_app, edits_start.
  rewrite (undos_pushed (fun i => Usage.applied (take i texts))
             (S (length texts)) (S (length texts))) by lia.
  rewrite Nat.sub_diag. cbn [bind seq map].
  split; [apply usage_undos_empty |].
  eexists. split; reflexivity.
Qed.

(** X10.  The two usage cells are one undo apart.  After the same texts,
    [k + 1] undos of the second design's usage cell leave the content that
    [k] undos of the first design leave, for every [k] up to the number of
    texts: the second design's first undo restores the state that is already
    current. *)
Theorem usage_cells_one_undo_apart (texts : list string) (k : nat)
    (Hk : k <= length texts) :
  Usage.read_after_undos (S k) (Usage.edits texts Usage.start)
  = Ok (Before.Editor.get_content
          (fst (BeforeUsage.undos k
                  (BeforeUsage.add_texts texts Before.Editor.__init__)))).
Proof.
  unfold Usage.read_after_undos.
  rewrite edits_start.
  rewrite (undos_pushed (fun i => Usage.applied (take i texts))
             (S k) (S (length texts))) by lia.
  rewrite (before_undos_take texts k _ Hk).
  cbn [bind fst Nat.sub]. f_equal.
  unfold Usage.read, Before.Editor.get_content, Editor.get_content, Usage.applied.
  cbn [Usage.editor].
  rewrite after_content_add_texts, before_content_add_texts. reflexivity.
Qed.

Lemma usage_cells_one_undo_apart_witness :
  1 <= length ["Hello, "; "world!"]
  /\ Usage.read_after_undos 2 (Usage.edits ["Hello, "; "world!"] Usage.start)
     = Ok "Hello, ".
Proof.
  assert (Hk : 1 <= length ["Hello, "; "world!"]) by (repeat constructor).
  split; [exact Hk |].
  exact (usage_cells_one_undo_apart ["Hello, "; "world!"] 1 Hk).
Defined.

(** ** More on the heap of Editors and mementos *)

Lemma exec_frame (e l : Store.loc) (o : Store.obj) (call : Store.call)
    (h : Store.heap) :
  l <> e -> h !! l = Some o -> snd (Store.exec e call h) !! l = Some o.
Proof.
  intros Hne Hl.
  assert (Hfresh : fresh (dom h) <> l).
  { intros E. apply (is_fresh (dom h)). rewrite E. apply elem_of_dom.
    eexists. exact Hl. }
  destruct call as [words | | state]; cbn [Store.exec].
  - unfold Store.add_text.
    destruct (h !! e) as [[current | current] |]; cbn [snd]; try exact Hl.
    rewrite lookup_insert_ne by congruence. exact Hl.
  - unfold Store.get_state, Store.EditorState_new.
    destruct (h !! e) as [[current | current] |]; cbn [snd]; try exact Hl.
    rewrite lookup_insert_ne by exact Hfresh. exact Hl.
  - unfold Store.restore_state.
    destruct (h !! e) as [[current | current] |]; cbn [snd]; try exact Hl.
    destruct (Store.get_content state h) as [content | x]; cbn [snd];
      try exact Hl.
    rewrite lookup_insert_ne by congruence. exact Hl.
Qed.

Lemma exec_keeps_editor (e : Store.loc) (call : Store.call) (h : Store.heap) :
  (exists current, h !! e = Some (Store.ObjEditor current)) ->
  exists current, snd (Store.exec e call h) !! e = Some (Store.ObjEditor current).
Proof.
  intros [current He].
  destruct call as [words | | state]; cbn [Store.exec].
  - unfold Store.add_text. rewrite He. cbn [snd].
    eexists. apply lookup_insert_eq.
  - unfold Store.get_state, Store.EditorState_new. rewrite He. cbn [snd].
    exists current. rewrite lookup_insert_ne; [exact He |].
    intros E. apply (is_fresh (dom h)). rewrite E. apply elem_of_dom.
    eexists. exact He.
  - unfold Store.restore_state. rewrite He.
    destruct (Store.get_content state h) as [content | x]; cbn [snd].
    + eexists. apply lookup_insert_eq.
    + exists current. exact He.
Qed.

(** X11.  [get_state()] builds a new object each time and touches nothing
    else.  Two calls in a row on the same Editor return two different
    mementos, each at a location that was free, both holding the Editor's
    content; every object that existed before, the Editor included, is as it
    was. *)
Theorem get_state_allocates_fresh (h : Store.heap) (e : Store.loc)
    (content : string) (He : h !! e = Some (Store.ObjEditor content)) :
  exists (s1 s2 : Store.loc) (h1 h2 : Store.heap),
    Store.get_state e h = (Ok (Store.VRef s1), h1)
    /\ Store.get_state e h1 = (Ok (Store.VRef s2), h2)
    /\ s1 <> s2
    /\ h !! s1 = None
    /\ h1 !! s2 = None
    /\ Store.get_content (Store.VRef s1) h2 = Ok content
    /\ Store.get_content (Store.VRef s2) h2 = Ok content
    /\ (forall l, is_Some (h !! l) -> h2 !! l = h !! l).
Proof.
  set (s1 := fresh (dom h)).
  set (h1 := <[s1 := Store.ObjEditorState content]> h).
  set (s2 := fresh (dom h1)).
  set (h2 := <[s2 := Store.ObjEditorState content]> h1).
  assert (F1 : h !! s1 = None) by (apply not_elem_of_dom, is_fresh).
  assert (F2 : h1 !! s2 = None) by (apply not_elem_of_dom, is_fresh).
  assert (N1 : s1 <> e) by congruence.
  assert (He1 : h1 !! e = Some (Store.ObjEditor content)).
  { unfold h1. rewrite lookup_insert_ne by exact N1. exact He. }
  assert (N12 : s1 <> s2).
  { intros E. rewrite <- E in F2. unfold h1 in F2.
    rewrite lookup_insert_eq in F2. discriminate. }
  exists s1, s2, h1, h2.
  split; [unfold Store.get_state, Store.EditorState_new; rewrite He; reflexivity |].
  split; [unfold Store.get_state, Store.EditorState_new; rewrite He1; reflexivity |].
  split; [exact N12 |]. split; [exact F1 |]. split; [exact F2 |].
  split.
  { unfold Store.get_content, h2, h1.
    rewrite lookup_insert_ne by congruence. rewrite lookup_insert_eq.
    reflexivity. }
  split.
  { unfold Store.get_content, h2. rewrite lookup_insert_eq. reflexivity. }
  intros l [o Hl].
  assert (L1 : s1 <> l) by congruence.
  assert (L2 : s2 <> l).
  { intros E. unfold h1 in F2. rewrite lookup_insert_ne in F2 by exact N12.
    congruence. }
  unfold h2, h1. rewrite !lookup_insert_ne by assumption. reflexivity.
Qed.

Lemma get_state_allocates_fresh_witness :
  exists (s1 s2 : Store.loc) (h1 h2 : Store.heap),
    Store.get_state 1 {[ 1%positive := Store.ObjEditor "Hello, " ]}
    = (Ok (Store.VRef s1), h1)
    /\ Store.get_state 1 h1 = (Ok (Store.VRef s2), h2)
    /\ s1 <> s2
    /\ ({[ 1%positive := Store.ObjEditor "Hello, " ]} : Store.heap) !! s1 = None
    /\ h1 !! s2 = None
    /\ Store.get_content (Store.VRef s1) h2 = Ok "Hello, "
    /\ Store.get_content (Store.VRef s2) h2 = Ok "Hello, "
    /\ (forall l,
          is_Some (({[ 1%positive := Store.ObjEditor "Hello, " ]} : Store.heap) !! l) ->
          h2 !! l = ({[ 1%positive := Store.ObjEditor "Hello, " ]} : Store.heap) !! l).
Proof.
  apply (get_state_allocates_fresh {[ 1%positive := Store.ObjEditor "Hello, " ]} 1).
  reflexivity.
Defined.

(** X12.  A call of [add_text], [get_state] or [restore_state] that raises
    changes nothing: the heap after it is the heap before it.  On a live
    Editor, [add_text] returns normally for a [str] and raises [TypeError]
    for [None], an [int] or an object of the notebook's classes;
    [get_state] returns normally; and [restore_state] raises exactly when
    its argument has no [get_content], as [None] has none, and then raises
    [AttributeError], before the assignment. *)
Theorem editor_calls_are_exception_safe (h : Store.heap) (e : Store.loc)
    (call : Store.call) (other : Store.nonstr) :
  (forall x, fst (Store.exec e call h) = Raise x -> snd (Store.exec e call h) = h)
  /\ snd (Store.add_text_nonstr e other h) = h
  /\ (forall content,
        h !! e = Some (Store.ObjEditor content) ->
        (forall words : string,
           fst (Store.add_text e words h) = Ok Store.VNone)
        /\ fst (Store.add_text_nonstr e other h) = Raise TypeError
        /\ (exists s, fst (Store.get_state e h) = Ok (Store.VRef s))
        /\ (forall state x,
              fst (Store.restore_state e state h) = Raise x
              <-> Store.get_content state h = Raise AttributeError
                  /\ x = AttributeError)
        /\ (forall state saved,
              Store.get_content state h = Ok saved ->
              fst (Store.restore_state e state h) = Ok Store.VNone)).
Proof.
  split.
  { intros x. destruct call as [words | | state]; cbn [Store.exec].
    - unfold Store.add_text.
      destruct (h !! e) as [[current | current] |]; cbn [fst snd];
        intros; try reflexivity; discriminate.
    - unfold Store.get_state, Store.EditorState_new.
      destruct (h !! e) as [[current | current] |]; cbn [fst snd];
        intros; try reflexivity; discriminate.
    - unfold Store.restore_state.
      destruct (h !! e) as [[current | current] |]; cbn [fst snd];
        intros; try reflexivity.
      destruct (Store.get_content state h); cbn [fst snd] in *;
        [discriminate | reflexivity]. }
  split.
  { unfold Store.add_text_nonstr.
    destruct (h !! e) as [[current | current] |]; reflexivity. }
  intros content He.
  split; [intros words; unfold Store.add_text; rewrite He; reflexivity |].
  split; [unfold Store.add_text_nonstr; rewrite He; reflexivity |].
  split.
  { eexists. unfold Store.get_state, Store.EditorState_new. rewrite He.
    reflexivity. }
  split.
  - intros state x. unfold Store.restore_state. rewrite He.
    destruct (Store.get_content state h) as [c | y] eqn:Hg; cbn [fst].
    + split; [discriminate | intros [? _]; discriminate].
    + assert (y = AttributeError) as ->.
      { unfold Store.get_content in Hg.
        destruct state as [| l]; [congruence |].
        destruct (h !! l) as [[? | ?] |]; congruence. }
      split; [intros [= <-]; split; reflexivity | intros [_ ->]; reflexivity].
  - intros state saved Hg. unfold Store.restore_state. rewrite He, Hg.
    reflexivity.
Qed.

(** X13.  Calls on one Editor never reach another object.  After any
    sequence of [add_text], [get_state] and [restore_state] calls on the
    Editor at [e], every other object that existed before, memento or
    Editor, is exactly as it was, and [e] is still an Editor. *)
Theorem editor_calls_leave_other_objects (h : Store.heap) (e : Store.loc)
    (calls : list Store.call) (content : string)
    (He : h !! e = Some (Store.ObjEditor content)) :
  (forall l o, l <> e -> h !! l = Some o -> Store.execs e calls h !! l = Some o)
  /\ exists current, Store.execs e calls h !! e = Some (Store.ObjEditor current).
Proof.
  assert (He' : exists current, h !! e = Some (Store.ObjEditor current))
    by (exists content; exact He).
  clear He. revert h He'. unfold Store.execs.
  induction calls as [| call calls IH]; intros h He.
  - split; [intros l o _ Hl; exact Hl | exact He].
  - cbn [foldl].
    destruct (IH _ (exec_keeps_editor e call h He)) as [IH1 IH2].
    split; [| exact IH2].
    intros l o Hne Hl. apply IH1; [exact Hne |].
    apply exec_frame; assumption.
Qed.

Lemma editor_calls_leave_other_objects_witness :
  (forall l o, l <> 1%positive ->
     ({[ 1%positive := Store.ObjEditor "Hello, " ]} : Store.heap) !! l = Some o ->
     Store.execs 1 [Store.AddText "world!"; Store.GetState]
       {[ 1%positive := Store.ObjEditor "Hello, " ]} !! l = Some o)
  /\ exists current,
       Store.execs 1 [Store.AddText "world!"; Store.GetState]
         {[ 1%positive := Store.ObjEditor "Hello, " ]} !! 1%positive
       = Some (Store.ObjEditor current).
Proof.
  apply (editor_calls_leave_other_objects
           {[ 1%positive := Store.ObjEditor "Hello, " ]} 1
           [Store.AddText "world!"; Store.GetState] "Hello, ").
  reflexivity.
Defined.

(** * The decorators notebook *)

Import Decorators.

(** ** Access control *)

Lemma has_permission_true (permission : string) (user : User.t) :
  User.has_permission permission user = true
  <-> permission ∈ User.permissions user.
Proof. unfold User.has_permission. apply bool_decide_eq_true. Qed.

(** X14.  A function behind [requires_permission(permission)] runs exactly
    for users that hold the permission: for them the call is the call of the
    function itself; for every other user it raises [PermissionError], and
    the function is not run, so nothing is printed.  In particular
    [delete_user] prints its line exactly for users holding ['admin']. *)
Theorem permission_guards_function {X R : Type} (permission : string)
    (func : User.t -> X -> outcome R * list string)
    (user : User.t) (args : X) (username : string) :
  (permission ∈ User.permissions user ->
   requires_permission permission func user args = func user args)
  /\ (permission ∉ User.permissions user ->
      requires_permission permission func user args
      = (Raises (PermissionError "You do not have the required permission"), []))
  /\ (snd (delete_user user username) = ["User " +:+ username +:+ " deleted"]
      <-> "admin" ∈ User.permissions user)
  /\ (snd (delete_user user username) = []
      <-> "admin" ∉ User.permissions user).
Proof.
  unfold delete_user, requires_permission, User.has_permission.
  repeat split; repeat case_bool_decide; cbn; intros; try done.
Qed.

(** X15.  Permission decorators stack and commute.  A function behind two
    of them runs exactly for users holding both permissions, raises
    [PermissionError] without running for all others, and the order in which
    the two decorators are applied makes no difference. *)
Theorem permission_decorators_stack {X R : Type} (p1 p2 : string)
    (func : User.t -> X -> outcome R * list string)
    (user : User.t) (args : X) :
  requires_permission p1 (requires_permission p2 func) user args
  = requires_permission p2 (requires_permission p1 func) user args
  /\ (p1 ∈ User.permissions user /\ p2 ∈ User.permissions user ->
      requires_permission p1 (requires_permission p2 func) user args
      = func user args)
  /\ (~ (p1 ∈ User.permissions user /\ p2 ∈ User.permissions user) ->
      requires_permission p1 (requires_permission p2 func) user args
      = (Raises (PermissionError "You do not have the required permission"), [])).
Proof.
  unfold requires_permission, User.has_permission.
  repeat split; repeat case_bool_decide; cbn; intros; try done; tauto.
Qed.

(** ** Caching *)

Section cache_facts.

Context {X K V : Type} `{Countable K}.
Variable key : X -> K.
Variable func : X -> V.

Lemma first_with_key_app (k : K) (l1 l2 : list X) :
  first_with_key key k (l1 ++ l2)
  = match first_with_key key k l1 with
    | Some args => Some args
    | None => first_with_key key k l2
    end.
Proof.
  induction l1 as [| a l1 IH]; [reflexivity |].
  cbn [app first_with_key]. destruct (decide (key a = k)); [reflexivity | exact IH].
Qed.

Lemma first_with_key_Some (k : K) (l : list X) (args : X) :
  first_with_key key k l = Some args -> args ∈ l /\ key args = k.
Proof.
  induction l as [| a l IH]; [discriminate |].
  cbn [first_with_key]. destruct (decide (key a = k)) as [E | _].
  - intros [= <-]. split; [left | exact E].
  - intros Hl. destruct (IH Hl) as [Hin Hk]. split; [right; exact Hin | exact Hk].
Qed.

Lemma first_with_key_is_Some (k : K) (l : list X) :
  is_Some (first_with_key key k l) <-> k ∈ key <$> l.
Proof.
  induction l as [| a l IH].
  - cbn. split; [intros [? ?]; discriminate | intros Hk; inversion Hk].
  - cbn [first_with_key fmap list_fmap]. rewrite elem_of_cons.
    destruct (decide (key a = k)) as [E | Hne].
    + split; [intros _; left; symmetry; exact E | intros _; eexists; reflexivity].
    + rewrite IH. split; [intros Hk; right; exact Hk |].
      intros [E | Hk]; [congruence | exact Hk].
Qed.

Lemma first_with_key_None (k : K) (l : list X) :
  first_with_key key k l = None <-> k ∉ key <$> l.
Proof.
  rewrite <- first_with_key_is_Some, eq_None_not_Some. reflexivity.
Qed.

Lemma cache_tracks_snoc_hit (seen : list X) (cache : gmap K V) (args : X) :
  cache_tracks key func seen cache ->
  is_Some (cache !! key args) ->
  cache_tracks key func (seen ++ [args]) cache.
Proof.
  intros Ht Hhit k. rewrite (Ht k), first_with_key_app.
  destruct (first_with_key key k seen) as [a |] eqn:E; [reflexivity |].
  cbn [first_with_key]. destruct (decide (key args = k)) as [<- | _]; [| reflexivity].
  rewrite (Ht (key args)), E in Hhit. destruct Hhit as [? ?]. discriminate.
Qed.

Lemma cache_tracks_snoc_miss (seen : list X) (cache : gmap K V) (args : X) :
  cache_tracks key func seen cache ->
  cache !! key args = None ->
  cache_tracks key func (seen ++ [args]) (<[key args := func args]> cache).
Proof.
  intros Ht Hmiss k. rewrite first_with_key_app.
  destruct (decide (key args = k)) as [<- | Hne].
  - rewrite lookup_insert_eq.
    rewrite (Ht (key args)) in Hmiss.
    destruct (first_with_key key (key args) seen); [discriminate |].
    cbn [first_with_key]. rewrite decide_True by reflexivity. reflexivity.
  - rewrite lookup_insert_ne by exact Hne. rewrite (Ht k).
    destruct (first_with_key key k seen); [reflexivity |].
    cbn [first_with_key]. rewrite decide_False by exact Hne. reflexivity.
Qed.

Lemma cache_tracks_dom (seen : list X) (cache : gmap K V) :
  cache_tracks key func seen cache ->
  dom cache = list_to_set (key <$> seen).
Proof.
  intros Ht. apply set_eq. intros k.
  rewrite elem_of_dom, elem_of_list_to_set, (Ht k), <- first_with_key_is_Some.
  rewrite fmap_is_Some. reflexivity.
Qed.

Lemma cache_calls_results (rest : list X) :
  forall (seen : list X) (cache : gmap K V),
    cache_tracks key func seen cache ->
    (cache_calls key func rest cache).1.1
    = map (fun args =>
             func (default args (first_with_key key (key args) (seen ++ rest))))
          rest
    /\ cache_tracks key func (seen ++ rest) (cache_calls key func rest cache).1.2.
Proof.
  induction rest as [| args rest IH]; intros seen cache Ht.
  - rewrite app_nil_r. split; [reflexivity | exact Ht].
  - cbn [cache_calls]. unfold cache_wrapper.
    replace (seen ++ args :: rest) with ((seen ++ [args]) ++ rest)
      by (rewrite <- app_assoc; reflexivity).
    destruct (cache !! key args) as [cached |] eqn:E.
    + assert (Ht' : cache_tracks key func (seen ++ [args]) cache)
        by (apply cache_tracks_snoc_hit; [exact Ht | eexists; exact E]).
      destruct (IH _ _ Ht') as [IH1 IH2].
      destruct (cache_calls key func rest cache) as [[results cache2] evaluated2].
      cbn [fst snd map] in *. split; [| exact IH2].
      f_equal; [| exact IH1].
      rewrite (Ht (key args)) in E.
      rewrite !first_with_key_app.
      destruct (first_with_key key (key args) seen) as [a |]; [| discriminate].
      cbn in E |- *. congruence.
    + pose proof (cache_tracks_snoc_miss seen cache args Ht E) as Ht'.
      destruct (IH _ _ Ht') as [IH1 IH2].
      destruct (cache_calls key func rest (<[key args := func args]> cache))
        as [[results cache2] evaluated2].
      cbn [fst snd map] in *. split; [| exact IH2].
      f_equal; [| exact IH1].
      rewrite (Ht (key args)) in E.
      rewrite !first_with_key_app.
      destruct (first_with_key key (key args) seen) as [a |]; [discriminate |].
      cbn [first_with_key app]. rewrite decide_True by reflexivity. reflexivity.
Qed.

Lemma cache_calls_evaluated (rest : list X) :
  forall (seen : list X) (cache : gmap K V),
    cache_tracks key func seen cache ->
    NoDup (key <$> (cache_calls key func rest cache).2)
    /\ (forall k, k ∈ key <$> (cache_calls key func rest cache).2
                  <-> k ∈ key <$> rest /\ k ∉ key <$> seen)
    /\ (forall args, args ∈ (cache_calls key func rest cache).2 ->
                     first_with_key key (key args) (seen ++ rest) = Some args).
Proof.
  induction rest as [| args rest IH]; intros seen cache Ht.
  - cbn. split; [constructor |]. split.
    + intros k. rewrite elem_of_nil. tauto.
    + intros args Hin. inversion Hin.
  - cbn [cache_calls]. unfold cache_wrapper.
    destruct (cache !! key args) as [cached |] eqn:E.
    + assert (Ht' : cache_tracks key func (seen ++ [args]) cache)
        by (apply cache_tracks_snoc_hit; [exact Ht | eexists; exact E]).
      assert (Hseen : key args ∈ key <$> seen).
      { apply first_with_key_is_Some. rewrite (Ht (key args)) in E.
        destruct (first_with_key key (key args) seen); [eexists; reflexivity | discriminate]. }
      destruct (IH _ _ Ht') as (IH1 & IH2 & IH3).
      destruct (cache_calls key func rest cache) as [[results cache2] evaluated2].
      cbn [fst snd app] in *. split; [exact IH1 |]. split.
      * intros k. rewrite IH2, fmap_app, elem_of_app. cbn [fmap list_fmap].
        rewrite !elem_of_cons, elem_of_nil.
        split.
        -- intros [Hr Hn]. split; [right; exact Hr | tauto].
        -- intros [[-> | Hr] Hn]; [tauto |]. split; [exact Hr |].
           intros [Hs | [-> | []]]; tauto.
      * intros a Ha. specialize (IH3 a Ha).
        rewrite <- app_assoc in IH3. exact IH3.
    + pose proof (cache_tracks_snoc_miss seen cache args Ht E) as Ht'.
      assert (Hseen : key args ∉ key <$> seen).
      { apply first_with_key_None. rewrite (Ht (key args)) in E.
        destruct (first_with_key key (key args) seen); [discriminate | reflexivity]. }
      destruct (IH _ _ Ht') as (IH1 & IH2 & IH3).
      destruct (cache_calls key func rest (<[key args := func args]> cache))
        as [[results cache2] evaluated2].
      cbn [fst snd app fmap list_fmap] in *. split; [| split].
      * apply NoDup_cons. split; [| exact IH1].
        rewrite IH2, fmap_app, elem_of_app. cbn [fmap list_fmap].
        rewrite elem_of_cons. tauto.
      * intros k. rewrite !elem_of_cons, IH2, fmap_app, elem_of_app.
        cbn [fmap list_fmap]. rewrite elem_of_cons, elem_of_nil.
        destruct (decide (k = key args)) as [-> | Hne]; tauto.
      * intros a. rewrite elem_of_cons. intros [-> | Ha].
        -- rewrite first_with_key_app.
           apply first_with_key_None in Hseen. rewrite Hseen.
           cbn [first_with_key]. rewrite decide_True by reflexivity. reflexivity.
        -- specialize (IH3 a Ha). rewrite <- app_assoc in IH3. exact IH3.
Qed.

Lemma cache_tracks_empty : cache_tracks key func [] ∅.
Proof. intros k. rewrite lookup_empty. reflexivity. Qed.

End cache_facts.

(** X16.  A function behind [cache_decorator] returns, at each call, the
    function's result on the first argument tuple of the calls so far that
    the dictionary holds under the same key as the arguments of the call,
    that is, the first one that is [==] to them.  So when the function has
    equal results on [==] argument tuples, each call returns the function's
    result on its own arguments.  Every result stored in the cache is the
    function's result on one of the argument tuples with that key. *)
Theorem cache_returns_first_equal_result {X K V : Type} `{Countable K}
    (key : X -> K) (func : X -> V) (argss : list X) :
  (cache_decorated key func argss).1.1
  = map (fun args =>
           func (default args (first_with_key key (key args) argss)))
        argss
  /\ ((forall a b, key a = key b -> func a = func b) ->
      (cache_decorated key func argss).1.1 = map func argss)
  /\ (forall k cached,
        (cache_decorated key func argss).1.2 !! k = Some cached ->
        exists args, args ∈ argss /\ key args = k /\ cached = func args).
Proof.
  destruct (cache_calls_results key func argss [] ∅ (cache_tracks_empty key func))
    as [Hres Ht].
  cbn [app] in Hres, Ht. fold (cache_decorated key func argss) in Hres, Ht.
  split; [exact Hres |]. split.
  - intros Hfunc. rewrite Hres. apply map_ext. intros args.
    destruct (first_with_key key (key args) argss) as [a |] eqn:E; [| reflexivity].
    cbn [default]. apply Hfunc.
    apply (first_with_key_Some key) in E. tauto.
  - intros k cached Hk. rewrite (Ht k) in Hk.
    destruct (first_with_key key k argss) as [a |] eqn:E; [| discriminate].
    cbn in Hk. apply (first_with_key_Some key) in E. exists a.
    split; [tauto |]. split; [tauto | congruence].
Qed.

(** Two calls whose arguments are [==] but not the same, as [1] and
    [True] are: the second call returns what the first one stored, and the
    function is evaluated once. *)
Example cache_equal_arguments_share_an_entry :
  cache_decorated
    (fun args : Z + bool =>
       match args with
       | inl n => n
       | inr b => if b then 1%Z else 0%Z
       end)
    (fun args : Z + bool =>
       match args with
       | inl _ => "int"
       | inr _ => "bool"
       end)
    [inl 1%Z; inr true]
  = (["int"; "int"], {[ 1%Z := "int" ]}, [inl 1%Z]).
Proof. reflexivity. Qed.

(** X17.  A function behind [cache_decorator] is evaluated once for each
    key and never again: over any sequence of calls made after the
    decorator is applied, the function is called only on argument tuples
    that occur, on exactly one tuple for each key that occurs, and those
    keys are the keys of the cache at the end.  Two tuples that are [==]
    share a key, so the function is evaluated on the first of them only. *)
Theorem cache_evaluates_once_per_key {X K V : Type} `{Countable K}
    (key : X -> K) (func : X -> V) (argss : list X) :
  NoDup (key <$> (cache_decorated key func argss).2)
  /\ (forall k, k ∈ key <$> (cache_decorated key func argss).2
                <-> k ∈ key <$> argss)
  /\ (forall args, args ∈ (cache_decorated key func argss).2 ->
                   first_with_key key (key args) argss = Some args)
  /\ dom (cache_decorated key func argss).1.2 = list_to_set (key <$> argss).
Proof.
  destruct (cache_calls_evaluated key func argss [] ∅ (cache_tracks_empty key func))
    as (H1 & H2 & H3).
  destruct (cache_calls_results key func argss [] ∅ (cache_tracks_empty key func))
    as [_ Ht].
  cbn [app] in H3, Ht.
  split; [exact H1 |]. split; [| split; [exact H3 |]].
  - intros k. unfold cache_decorated. rewrite H2.
    cbn [fmap list_fmap]. rewrite elem_of_nil. tauto.
  - apply (cache_tracks_dom key func argss). exact Ht.
Qed.

(** ** Input validation *)

(** X18.  The validated [add] returns exactly when both arguments are
    non-negative, and then returns their sum, which is at least each of
    them; with a negative argument it raises [ValueError].  Swapping the
    arguments never changes the outcome. *)
Theorem validated_add (x y : Z) :
  add x y = add y x
  /\ (forall r, add x y = Returns r
                <-> (0 <= x /\ 0 <= y /\ r = x + y)%Z)
  /\ (add x y = Raises (ValueError "Arguments must be non-negative")
      <-> (x < 0 \/ y < 0)%Z)
  /\ (forall r, add x y = Returns r -> (x <= r /\ y <= r /\ 0 <= r)%Z).
Proof.
  unfold add, validate_non_negative.
  destruct (Z.ltb_spec x 0), (Z.ltb_spec y 0); cbn [orb].
  all: rewrite ?(Z.add_comm y x).
  all: repeat split; intros; try discriminate; try lia.
  all: try (match goal with H : Returns _ = Returns _ |- _ =>
                              injection H as <- end; lia).
  all: try (f_equal; lia).
Qed.

(** ** Rate limiting *)

Section rate_limit_facts.

Context {T X R : Type}.
Variable within_period : T -> T -> bool.
Variable max_calls : Z.
Variable func : X -> R.

Lemma filter_length_le (current_time : T) (calls : list T) :
  length (List.filter (fun call => within_period current_time call) calls)
  <= length calls.
Proof.
  induction calls as [| call calls IH]; [reflexivity |].
  cbn [List.filter]. destruct (within_period current_time call); cbn [length]; lia.
Qed.

Lemma filter_all_within (current_time : T) (calls : list T) :
  forallb (within_period current_time) calls = true ->
  List.filter (fun call => within_period current_time call) calls = calls.
Proof.
  induction calls as [| call calls IH]; [reflexivity |].
  cbn [forallb List.filter]. destruct (within_period current_time call);
    cbn [andb]; [| discriminate].
  intros Hall. rewrite IH by exact Hall. reflexivity.
Qed.

Lemma wrapper_bound (current_time : T) (args : X) (calls : list T) :
  (Z.of_nat (length (snd (rate_limit_wrapper within_period max_calls func
                            current_time args calls)))
   <= Z.max max_calls (Z.of_nat (length calls)))%Z.
Proof.
  unfold rate_limit_wrapper.
  pose proof (filter_length_le current_time calls) as Hf.
  destruct (Z.geb_spec
              (Z.of_nat (length (List.filter
                                   (fun call => within_period current_time call)
                                   calls)))
              max_calls) as [Hge | Hlt]; cbn [snd].
  - lia.
  - rewrite length_app. cbn [length]. lia.
Qed.

Lemma calls_bound (requests : list (T * X)) :
  forall calls : list T,
    (Z.of_nat (length (snd (rate_limit_calls within_period max_calls func
                              requests calls)))
     <= Z.max max_calls (Z.of_nat (length calls)))%Z.
Proof.
  induction requests as [| [current_time args] rest IH]; intros calls.
  - cbn. lia.
  - cbn [rate_limit_calls].
    pose proof (wrapper_bound current_time args calls) as Hw.
    destruct (rate_limit_wrapper within_period max_calls func
                current_time args calls) as [r calls1].
    specialize (IH calls1).
    destruct (rate_limit_calls within_period max_calls func rest calls1)
      as [rs calls2].
    cbn [snd] in *. lia.
Qed.

Lemma calls_all_return (requests : list (T * X)) :
  forall calls : list T,
    (Z.of_nat (length calls + length requests) <= max_calls)%Z ->
    fst (rate_limit_calls within_period max_calls func requests calls)
    = map (fun request => Returns (func (snd request))) requests.
Proof.
  induction requests as [| [current_time args] rest IH]; intros calls Hle;
    [reflexivity |].
  cbn [rate_limit_calls]. unfold rate_limit_wrapper.
  pose proof (filter_length_le current_time calls) as Hf.
  cbn [length] in Hle.
  destruct (Z.geb_spec
              (Z.of_nat (length (List.filter
                                   (fun call => within_period current_time call)
                                   calls)))
              max_calls) as [Hge | Hlt]; [lia |].
  specialize (IH (List.filter (fun call => within_period current_time call) calls
                  ++ [current_time])).
  destruct (rate_limit_calls within_period max_calls func rest
              (List.filter (fun call => within_period current_time call) calls
               ++ [current_time])) as [rs calls2].
  cbn [fst snd map] in *. f_equal. apply IH.
  rewrite length_app. cbn [length]. lia.
Qed.

End rate_limit_facts.

(** X19.  The list of recorded call times of a rate limiter never grows
    beyond [max_calls]: after any sequence of calls, at any clock readings,
    it holds at most [max_calls] times, or at most as many as it held at the
    start if that was more.  Starting from the empty list of a new limiter
    with a non-negative [max_calls], it never holds more than [max_calls]. *)
Theorem rate_limit_bounds_recorded_calls {T X R : Type}
    (within_period : T -> T -> bool) (max_calls : Z) (func : X -> R)
    (requests : list (T * X)) (calls : list T) :
  (Z.of_nat (length (snd (rate_limit_calls within_period max_calls func
                            requests calls)))
   <= Z.max max_calls (Z.of_nat (length calls)))%Z
  /\ (Z.of_nat (length (snd (rate_limit_calls within_period max_calls func
                               requests [])))
      <= Z.max max_calls 0)%Z.
Proof.
  split; [apply calls_bound |].
  apply (calls_bound within_period max_calls func requests []).
Qed.

(** X20.  The first [max_calls] calls through a new rate limiter always go
    through, whatever the clock reads: when the calls already recorded and
    the calls requested are together at most [max_calls], every requested
    call returns the function's result and none raises. *)
Theorem rate_limit_admits_first_calls {T X R : Type}
    (within_period : T -> T -> bool) (max_calls : Z) (func : X -> R)
    (requests : list (T * X)) (calls : list T)
    (Hle : (Z.of_nat (length calls + length requests) <= max_calls)%Z) :
  fst (rate_limit_calls within_period max_calls func requests calls)
  = map (fun request => Returns (func (snd request))) requests.
Proof. exact (calls_all_return within_period max_calls func requests calls Hle). Qed.

Lemma rate_limit_admits_first_calls_witness :
  fst (rate_limit_calls (fun now call : Z => (now - call <? 10)%Z) 3
         (fun _ : unit => "Function called")
         [(0%Z, tt); (1%Z, tt); (2%Z, tt)] [])
  = [Returns "Function called"; Returns "Function called";
     Returns "Function called"].
Proof.
  apply (rate_limit_admits_first_calls
           (fun now call : Z => (now - call <? 10)%Z) 3
           (fun _ : unit => "Function called")
           [(0%Z, tt); (1%Z, tt); (2%Z, tt)] []).
  vm_compute. discriminate.
Defined.

(** X21.  Once [max_calls] calls are recorded and all of them are still
    within the period, the next call raises "Rate limit exceeded", the
    function is not called, and the recorded times are left as they are. *)
Theorem rate_limit_rejects_when_full {T X R : Type}
    (within_period : T -> T -> bool) (max_calls : Z) (func : X -> R)
    (current_time : T) (args : X) (calls : list T)
    (Hall : forallb (within_period current_time) calls = true)
    (Hfull : (max_calls <= Z.of_nat (length calls))%Z) :
  rate_limit_wrapper within_period max_calls func current_time args calls
  = (Raises (Exception "Rate limit exceeded"), calls).
Proof.
  unfold rate_limit_wrapper.
  rewrite (filter_all_within within_period current_time calls Hall).
  destruct (Z.geb_spec (Z.of_nat (length calls)) max_calls); [reflexivity | lia].
Qed.

Lemma rate_limit_rejects_when_full_witness :
  rate_limit_wrapper (fun now call : Z => (now - call <? 10)%Z) 3
    (fun _ : unit => "Function called") 3%Z tt [0%Z; 1%Z; 2%Z]
  = (Raises (Exception "Rate limit exceeded"), [0%Z; 1%Z; 2%Z]).
Proof.
  apply (rate_limit_rejects_when_full
           (fun now call : Z => (now - call <? 10)%Z) 3
           (fun _ : unit => "Function called") 3%Z tt [0%Z; 1%Z; 2%Z]).
  - reflexivity.
  - vm_compute. discriminate.
Defined.

(** ** Memoization *)

Lemma fibonacci_deeper (depth : nat) :
  forall (n r : Z),
    fibonacci depth n = Some r -> fibonacci (S depth) n = Some r.
Proof.
  induction depth as [| depth IH]; intros n r E; [discriminate E |].
  cbn [fibonacci] in E. change (fibonacci (S (S depth)) n)
    with (if (n <? 2)%Z then Some n
          else match fibonacci (S depth) (n - 1), fibonacci (S depth) (n - 2) with
               | Some a, Some b => Some (a + b)%Z
               | _, _ => None
               end).
  destruct (n <? 2)%Z; [exact E |].
  destruct (fibonacci depth (n - 1)) as [a |] eqn:Ea; [| discriminate E].
  destruct (fibonacci depth (n - 2)) as [b |] eqn:Eb; [| discriminate E].
  rewrite (IH _ _ Ea), (IH _ _ Eb). exact E.
Qed.

Lemma fibonacci_deeper_le (d1 d2 : nat) (n r : Z) :
  d1 <= d2 -> fibonacci d1 n = Some r -> fibonacci d2 n = Some r.
Proof.
  induction 1 as [| d2 _ IH]; [tauto |].
  intros E. apply fibonacci_deeper, IH, E.
Qed.

Lemma fibonacci_returns (depth : nat) :
  forall n : Z,
    1 <= depth -> (n <= Z.of_nat depth)%Z ->
    exists r, fibonacci depth n = Some r /\ ((0 <= n)%Z -> (0 <= r)%Z).
Proof.
  induction depth as [| depth IH]; intros n Hd Hn; [lia |].
  cbn [fibonacci]. destruct (Z.ltb_spec n 2) as [Hlt | Hge].
  - exists n. split; [reflexivity | tauto].
  - destruct (IH (n - 1)%Z) as (a & Ea & Ha); [lia | lia |].
    destruct (IH (n - 2)%Z) as (b & Eb & Hb); [lia | lia |].
    rewrite Ea, Eb. exists (a + b)%Z. split; [reflexivity | lia].
Qed.

(** X22.  [fibonacci(n)] returns within a nesting depth of [n] calls (one
    call for [n < 2]).  It returns [n] itself for every [n < 2], negative
    [n] included; for [n >= 2] it returns the sum of what it returns for
    [n - 1] and [n - 2]; for [n >= 0] the result is not negative; and the
    result does not depend on the depth allowed, as long as it is enough. *)
Theorem fibonacci_returns_fibonacci_numbers (depth : nat) (n : Z)
    (Hd : 1 <= depth) (Hn : (n <= Z.of_nat depth)%Z) :
  exists r,
    fibonacci depth n = Some r
    /\ ((n < 2)%Z -> r = n)
    /\ ((2 <= n)%Z ->
        exists a b,
          fibonacci depth (n - 1) = Some a
          /\ fibonacci depth (n - 2) = Some b
          /\ r = (a + b)%Z)
    /\ ((0 <= n)%Z -> (0 <= r)%Z)
    /\ (forall depth' r', fibonacci depth' n = Some r' -> r' = r).
Proof.
  destruct (fibonacci_returns depth n Hd Hn) as (r & Er & Hr).
  exists r. split; [exact Er |].
  split.
  { intros Hlt. destruct depth as [| depth]; [lia |].
    cbn [fibonacci] in Er. destruct (Z.ltb_spec n 2); [congruence | lia]. }
  split.
  { intros Hge. destruct depth as [| depth]; [lia |].
    cbn [fibonacci] in Er. destruct (Z.ltb_spec n 2); [lia |].
    destruct (fibonacci depth (n - 1)) as [a |] eqn:Ea; [| discriminate Er].
    destruct (fibonacci depth (n - 2)) as [b |] eqn:Eb; [| discriminate Er].
    exists a, b.
    split; [apply fibonacci_deeper, Ea |].
    split; [apply fibonacci_deeper, Eb | congruence]. }
  split; [exact Hr |].
  intros depth' r' E'.
  pose proof (fibonacci_deeper_le depth (Nat.max depth depth') n r
                (Nat.le_max_l _ _) Er) as E1.
  pose proof (fibonacci_deeper_le depth' (Nat.max depth depth') n r'
                (Nat.le_max_r _ _) E') as E2.
  congruence.
Qed.

Lemma fibonacci_returns_fibonacci_numbers_witness :
  exists r,
    fibonacci 10 10 = Some r
    /\ ((10 < 2)%Z -> r = 10%Z)
    /\ ((2 <= 10)%Z ->
        exists a b,
          fibonacci 10 (10 - 1) = Some a
          /\ fibonacci 10 (10 - 2) = Some b
          /\ r = (a + b)%Z)
    /\ ((0 <= 10)%Z -> (0 <= r)%Z)
    /\ (forall depth' r', fibonacci depth' 10 = Some r' -> r' = r).
Proof.
  apply (fibonacci_returns_fibonacci_numbers 10 10).
  - repeat constructor.
  - vm_compute. discriminate.
Defined.

(** What the notebook prints for [fibonacci(10)]. *)
Example fibonacci_10 : fibonacci 10 10 = Some 55%Z.
Proof. reflexivity. Qed.
